(** * Cold-outreach pipeline: rate limiter, generation loop, orchestrator

    A shallow embedding of [email_composer.py], [app.py], [leads.py] and
    [email_sender.py].

    Conventions of the embedding.
    - A [datetime] is a number of microseconds on the wall clock and a
      [timedelta] a (signed) number of microseconds, the resolution Python's
      [datetime] works at.  [timedelta.seconds] is the seconds field of the
      normalised (days, seconds, microseconds) triple.
    - Python numbers that count tokens ([int] from the API, [float] from the
      estimate) are rationals.  The arithmetic of [int]s is exact and is that
      of the whole rationals.  A [float] is taken for the rational it stands
      for and the rounding of its arithmetic is not modelled: what is stated
      of an exact sum or difference is stated for whole numbers.
    - A Python [str] is the list of its Unicode code points; literals are
      written with [s].
    - Console output ([print]) is not part of the model. *)

From Stdlib Require Import ZArith QArith List Ascii String Bool Lia Lqa.
Import ListNotations.

Local Open Scope Z_scope.

(** ** Time *)

Module Time.

Definition datetime := Z.
Definition timedelta := Z.

Definition microseconds_per_second : Z := 1000000.
Definition microseconds_per_day : Z := 86400 * microseconds_per_second.

(** [timedelta(minutes=n)] *)
Definition minutes (n : Z) : timedelta := n * 60 * microseconds_per_second.

(** [timedelta(seconds=n)] *)
Definition seconds_td (n : Z) : timedelta := n * microseconds_per_second.

(** [td.seconds]: the seconds field after normalisation, in [0, 86400). *)
Definition td_seconds (d : timedelta) : Z :=
  (d mod microseconds_per_day) / microseconds_per_second.

End Time.

(** ** [class TokenRateLimiter] *)

Module RateLimiter.
Import Time.

Record TokenRateLimiter := mkLimiter {
  tokens_per_minute : Q;
  used_tokens : Q;
  window_start : datetime
}.

(** [TokenRateLimiter.__init__], with the value [datetime.now()] returned. *)
Definition init (tokens_per_minute : Q) (now : datetime) : TokenRateLimiter :=
  mkLimiter tokens_per_minute 0 now.

(** The budget the permission check compares against:
    [self.tokens_per_minute - self.used_tokens]. *)
Definition remaining_tokens (self : TokenRateLimiter) : Q :=
  tokens_per_minute self - used_tokens self.

(** [request_permission(self, estimated_tokens)]; [now] is what
    [datetime.now()] returns at the call.  The result is the number of
    seconds to wait together with the limiter after the call. *)
Definition request_permission (self : TokenRateLimiter) (now : datetime)
    (estimated_tokens : Q) : Z * TokenRateLimiter :=
  if minutes 1 <? now - window_start self then
    (0, mkLimiter (tokens_per_minute self) 0 now)
  else
    if Qle_bool estimated_tokens (remaining_tokens self) then
      (0, self)
    else
      let seconds_until_reset := 60 - td_seconds (now - window_start self) in
      (seconds_until_reset, self).

(** [record_usage(self, tokens_used)] *)
Definition record_usage (self : TokenRateLimiter) (tokens_used : Q)
    : TokenRateLimiter :=
  mkLimiter (tokens_per_minute self) (used_tokens self + tokens_used)
            (window_start self).






(** A token quantity that is a whole number, as an [int] of Python is: the
    ceiling, and every count the API reports. *)
Definition whole (q : Q) : Prop := exists z : Z, q == inject_Z z.

(** The apparent remaining budget after [record_usage(x)] followed by a
    permission check at [now]. *)
Definition remaining_after_record_and_check (self : TokenRateLimiter)
    (x : Q) (now : datetime) (est : Q) : Q :=
  remaining_tokens (snd (request_permission (record_usage self x) now est)).

End RateLimiter.

(** ** Python [str] operations used by the composer *)

Module Text.

(** A character is a Unicode code point, and a [str] the list of its code
    points: indices, lengths and slices count code points, as Python's do. *)
Definition char := N.

Definition str := list char.

(** The code points a sequence of UTF-8 bytes encodes. *)
Fixpoint decode (bytes : list N) : str :=
  match bytes with
  | [] => []
  | b :: rest =>
      if (b <? 192)%N then b :: decode rest
      else if (b <? 224)%N then
        match rest with
        | b1 :: rest1 => ((b mod 32) * 64 + b1 mod 64)%N :: decode rest1
        | [] => [b]
        end
      else if (b <? 240)%N then
        match rest with
        | b1 :: b2 :: rest2 =>
            ((b mod 16) * 4096 + (b1 mod 64) * 64 + b2 mod 64)%N :: decode rest2
        | _ => [b]
        end
      else
        match rest with
        | b1 :: b2 :: b3 :: rest3 =>
            ((b mod 8) * 262144 + (b1 mod 64) * 4096 + (b2 mod 64) * 64
             + b3 mod 64)%N :: decode rest3
        | _ => [b]
        end
  end.

(** A literal: the code points of the text between the quotes, which this
    file holds in UTF-8 as the Python sources do. *)
Definition s (x : string) : str :=
  decode (map N_of_ascii (list_ascii_of_string x)).

Arguments s : simpl never.

(** The line break ["\n"]. *)
Definition nl : char := 10%N.

(** U+0130, the capital letter I with a dot above. *)
Definition dotted_capital_i : char := 304%N.

(** [len(x)] *)
Definition len (x : str) : Z := Z.of_nat (List.length x).

(** [str.lower], one code point at a time.  The letters A-Z and the capital
    letters of Latin-1 (U+00C0-U+00DE without the sign U+00D7) move up by 32.
    U+0130, the capital I with a dot above, is the one code point whose lower
    case is two code points: U+0069 U+0307.  U+212A, the Kelvin sign, becomes
    the letter k.  Every other code point with a lower case of its own has
    one code point outside ASCII for it and is left as it is here: a
    comparison with ASCII text, an index and a length, which are all the
    sources take from a lowered string, come out as in Python. *)
Definition lower_char (c : char) : list char :=
  if ((65 <=? c) && (c <=? 90))%N then [(c + 32)%N]
  else if ((192 <=? c) && (c <=? 222) && negb (c =? 215))%N then [(c + 32)%N]
  else if (c =? dotted_capital_i)%N then [105%N; 775%N]
  else if (c =? 8490)%N then [107%N]
  else [c].

Definition lower (x : str) : str := flat_map lower_char x.

(** [x.startswith(prefix)] *)
Fixpoint startswith (x prefix : str) : bool :=
  match prefix, x with
  | [], _ => true
  | _ :: _, [] => false
  | p :: prefix', c :: x' => N.eqb c p && startswith x' prefix'
  end.

(** [x.startswith((p1, p2, ...))] *)
Definition startswith_any (x : str) (prefixes : list str) : bool :=
  existsb (startswith x) prefixes.

(** [x.find(sub)]: the lowest index where [sub] occurs, or [-1]. *)
Fixpoint find_from (x sub : str) (i : Z) : Z :=
  if startswith x sub then i
  else match x with
       | [] => -1
       | _ :: x' => find_from x' sub (i + 1)
       end.

Definition find (x sub : str) : Z := find_from x sub 0.

(** [sub in x] *)
Definition contains (x sub : str) : bool := negb (find x sub =? -1).

(** A slice bound: negative indices count from the end, and every index is
    clamped to [0, len]. *)
Definition slice_index (x : str) (i : Z) : nat :=
  Z.to_nat (if i <? 0 then Z.max 0 (len x + i) else Z.min (len x) i).

(** [x[i:]] *)
Definition slice_from (x : str) (i : Z) : str := skipn (slice_index x i) x.

(** [x[:i]] *)
Definition slice_to (x : str) (i : Z) : str := firstn (slice_index x i) x.

(** [x.split(sep, 1)] for a non-empty [sep]. *)
Definition split_once (x sep : str) : list str :=
  let i := find x sep in
  if i =? -1 then [x]
  else [slice_to x i; slice_from x (i + len sep)].

(** [c.isspace()]: the white space of Unicode.  Tab, line feed, vertical
    tab, form feed, carriage return, the separators 28-31, the space, U+0085,
    U+00A0, U+1680, U+2000-U+200A, U+2028, U+2029, U+202F, U+205F and
    U+3000. *)
Definition isspace (c : char) : bool :=
  (((9 <=? c) && (c <=? 13)) || ((28 <=? c) && (c <=? 32))
   || (c =? 133) || (c =? 160) || (c =? 5760)
   || ((8192 <=? c) && (c <=? 8202))
   || (c =? 8232) || (c =? 8233) || (c =? 8239) || (c =? 8287)
   || (c =? 12288))%N.

Fixpoint lstrip (x : str) : str :=
  match x with
  | [] => []
  | c :: x' => if isspace c then lstrip x' else x
  end.

Definition rstrip (x : str) : str := rev (lstrip (rev x)).

(** [x.strip()] *)
Definition strip (x : str) : str := rstrip (lstrip x).

(** Truthiness of a value that is [None] or a string. *)
Definition truthy (v : option str) : bool :=
  match v with
  | Some (_ :: _) => true
  | _ => false
  end.

End Text.

(** ** [email_composer.py]: the generation request loop and the main loop *)

Module Composer.
Import Time RateLimiter Text.

(** A row of [csv.DictReader]: a dict from column names to values. *)
Definition Lead := list (string * str).

(** [d.get(key)] *)
Fixpoint get (d : Lead) (key : string) : option str :=
  match d with
  | [] => None
  | (k, v) :: d' => if String.eqb k key then Some v else get d' key
  end.

(** [d.get(key, default)] *)
Definition get_default (d : Lead) (key : string) (default : str) : str :=
  match get d key with
  | Some v => v
  | None => default
  end.

(** The decoded body of a response.  [choices] lists, for each choice, the
    value of [choice['message']['content']], or the text of the error that
    the lookup raises; a body without the key ['choices'] has the empty
    list.  [total_tokens] is [usage.total_tokens] when the body has it. *)
Inductive choice :=
| Content (text : str)
| ContentMissing (e : str).

Record Result := mkResult {
  choices : list choice;
  total_tokens : option Q
}.

(** The value of [int(response.headers['Retry-After'])]. *)
Inductive retry_after_value :=
| RetryAfter (seconds : Z)
| RetryAfterInvalid (e : str).

Record Response := mkResponse {
  status_code : Z;
  retry_after : option retry_after_value;   (* [None]: header absent *)
  http_error : str;     (* text of the error [raise_for_status] raises *)
  json : Result
}.

(** What a call of [requests.post] does. *)
Inductive post_outcome :=
| RequestException (e : str)      (* transport failure *)
| OtherException (e : str)
| Responds (r : Response).

Definition len_list {A} (l : list A) : Z := Z.of_nat (List.length l).

(** What the process does to its environment, in order. *)
Inductive event :=
| EvPermission (estimated_tokens : Q)
| EvSleep (seconds : Z)
| EvPost
| EvRecord (tokens_used : Q)
| EvSaveEmail (email_content : str)
| EvJsonWrite.

Record EmailData := mkEmail {
  subject : str;
  from : str;
  to : str;
  body : str
}.

(** The JSON output file. *)
Inductive json_file :=
| Absent
| Undecodable
| Emails (all_emails : list EmailData).

Record World := mkWorld {
  clock : datetime;                            (* [datetime.now()] *)
  network : nat -> timedelta * post_outcome;   (* the n-th [requests.post] *)
  posts : nat;                                 (* posts made so far *)
  events : list event;
  json_output : json_file
}.

Definition log (ev : event) (w : World) : World :=
  mkWorld (clock w) (network w) (posts w) (events w ++ [ev]) (json_output w).

Definition advance (d : timedelta) (w : World) : World :=
  mkWorld (clock w + d) (network w) (posts w) (events w) (json_output w).

(** [requests.post(url, headers=headers, json=payload)] *)
Definition post (w : World) : post_outcome * World :=
  let '(took, outcome) := network w (posts w) in
  let w' := advance took (log EvPost w) in
  (outcome,
   mkWorld (clock w') (network w') (S (posts w')) (events w') (json_output w')).

(** [response.raise_for_status()] raises on 4xx and 5xx. *)
Definition raises_for_status (r : Response) : bool :=
  (400 <=? status_code r) && (status_code r <? 600).

Definition max_retries : Z := 3.

(** The clean-up of introductory text, lines 158-163.  The lead-in phrase
    and the marker are looked for in [email_content.lower()]; the index
    found there is then used to slice [email_content] itself. *)
Definition lead_ins : list str :=
  [s "hier ist"; s "hier ist die"; s "das ist"; s "ich habe"].

Definition clean_up (email_content : str) : str :=
  if startswith_any (lower email_content) lead_ins then
    let subject_index := find (lower email_content) (s "betreff:") in
    if negb (subject_index =? -1) then slice_from email_content subject_index
    else email_content
  else email_content.

(** *** [generate_email_with_groq]

    The prompt is a fixed template filled in from the lead; only the number
    of whitespace-separated words of the finished prompt,
    [len(prompt.split())], enters the computation, and it is taken from
    [prompt_words]. *)

Section Generation.

Variable prompt_words : Lead -> nat.

(** [len(prompt.split()) * 1.3 + 1024] *)
Definition estimate (lead : Lead) : Q :=
  inject_Z (Z.of_nat (prompt_words lead)) * (13 # 10) + 1024.

(** [time.sleep] with a length known not to be negative. *)
Definition sleep (seconds : Z) (w : World) : World :=
  advance (seconds_td seconds) (log (EvSleep seconds) w).

Definition sleep_error : str := s "sleep length must be non-negative".

(** The loop [for attempt in range(max_retries)], entered at [attempt] with
    [todo] iterations left.  The result is what the function returns
    ([None] if the loop runs out), the limiter and the world. *)
Fixpoint request_loop (todo : nat) (attempt : Z) (lead : Lead)
    (estimated_tokens : Q) (rl : TokenRateLimiter) (w : World)
    : option str * TokenRateLimiter * World :=
  match todo with
  | O => (None, rl, w)
  | S todo' =>
    let next := request_loop todo' (attempt + 1) lead estimated_tokens rl in
    (* [except requests.exceptions.RequestException as e] *)
    let on_request_exception (e : str) (w : World) :=
      if attempt <? max_retries - 1 then
        let wait_time := 5 * (attempt + 1) in
        next (sleep wait_time w)
      else (Some (s "API Error after 3 attempts: " ++ e), rl, w) in
    (* [except Exception as e] *)
    let on_exception (e : str) (w : World) :=
      (Some (s "Error: " ++ e), rl, w) in
    let '(outcome, w1) := post w in
    match outcome with
    | RequestException e => on_request_exception e w1
    | OtherException e => on_exception e w1
    | Responds response =>
      if (status_code response =? 429) && (attempt <? max_retries - 1) then
        match retry_after response with
        | Some (RetryAfterInvalid e) => on_exception e w1
        | header =>
          let wait_time :=
            match header with Some (RetryAfter n) => n | _ => 60 end in
          if wait_time <? 0 then on_exception sleep_error w1
          else next (sleep wait_time w1)
        end
      else if raises_for_status response then
        on_request_exception (http_error response) w1
      else
        let result := json response in
        match choices result with
        | Content text :: _ =>
          let email_content := clean_up text in
          let total_tokens :=
            match total_tokens result with
            | Some n => n
            | None => estimated_tokens
            end in
          (Some email_content, record_usage rl total_tokens,
           log (EvRecord total_tokens) w1)
        | ContentMissing e :: _ => on_exception e w1
        | [] =>
          (Some (s "Error: Unable to generate email for "
                 ++ get_default lead "name" []), rl, w1)
        end
    end
  end.

Definition generate_email_with_groq (lead : Lead) (rate_limiter : TokenRateLimiter)
    (w : World) : option str * TokenRateLimiter * World :=
  let estimated_tokens := estimate lead in
  let '(wait_time, rate_limiter) :=
    request_permission rate_limiter (clock w) estimated_tokens in
  let w := log (EvPermission estimated_tokens) w in
  let w := if 0 <? wait_time then sleep wait_time w else w in
  request_loop (Z.to_nat max_retries) 0 lead estimated_tokens rate_limiter w.

(** The events one call of [generate_email_with_groq] adds to the trace. *)
Definition trace_of_call (lead : Lead) (rate_limiter : TokenRateLimiter)
    (w : World) : list event :=
  skipn (List.length (events w))
        (events (snd (generate_email_with_groq lead rate_limiter w))).

(** *** [parse_email_content] *)

Definition parse_email_content (email_content : str) : str * str :=
  if contains email_content (s "Betreff:") then
    match split_once email_content (s "Betreff:") with
    | _ :: after :: _ =>
      let content := strip after in
      let line_break_index := find content [nl] in
      if negb (line_break_index =? -1) then
        (strip (slice_to content line_break_index),
         strip (slice_from content line_break_index))
      else (content, [])
    | _ => ([], email_content)
    end
  else ([], email_content).

(** *** [save_email], [update_json_file] and [main] *)

Definition save_email (email_content : str) (w : World) : World :=
  log (EvSaveEmail email_content) w.

Definition update_json_file (email_data : EmailData) (w : World) : Z * World :=
  let all_emails :=
    match json_output w with
    | Emails l => l
    | Absent | Undecodable => []
    end in
  let all_emails := all_emails ++ [email_data] in
  let w := log EvJsonWrite w in
  (len_list all_emails,
   mkWorld (clock w) (network w) (posts w) (events w) (Emails all_emails)).

Record Config := mkConfig {
  leads_csv : option (list Lead);   (* [None]: the CSV file does not exist *)
  tokens_per_minute_env : Z;
  email_from : str
}.

(** The body of the loop over the leads. *)
Definition process_lead (cfg : Config) (st : TokenRateLimiter * World)
    (lead : Lead) : TokenRateLimiter * World :=
  let '(rate_limiter, w) := st in
  if negb (truthy (get lead "name")) then st
  else
    let recipient_email :=
      if truthy (get lead "emails") then get lead "emails" else None in
    if negb (truthy recipient_email) then st
    else
      let '(email_content, rate_limiter, w) :=
        generate_email_with_groq lead rate_limiter w in
      let text := match email_content with Some t => t | None => [] end in
      if truthy email_content
         && negb (startswith text (s "Error:"))
         && negb (startswith text (s "API Error:"))
      then
        let w := save_email text w in
        let '(subject, body) := parse_email_content text in
        let email_data :=
          mkEmail subject (email_from cfg)
                  (match recipient_email with Some r => r | None => [] end)
                  body in
        let '(_, w) := update_json_file email_data w in
        (rate_limiter, w)
      else (rate_limiter, w).

Definition main (cfg : Config) (w : World) : World :=
  let rate_limiter := init (inject_Z (tokens_per_minute_env cfg)) (clock w) in
  match leads_csv cfg with
  | None => w
  | Some leads => snd (fold_left (process_lead cfg) leads (rate_limiter, w))
  end.

End Generation.

(** *** Reading the trace of events *)

Definition is_permission (e : event) : bool :=
  match e with EvPermission _ => true | _ => false end.

Definition is_post (e : event) : bool :=
  match e with EvPost => true | _ => false end.

(** How many permission checks, and how many posts, a trace has. *)
Definition permission_checks (evs : list event) : nat :=
  List.length (filter is_permission evs).

Definition post_attempts (evs : list event) : nat :=
  List.length (filter is_post evs).

(** Every post of the trace has a permission check between it and the post
    before it (or the start); [permitted] tells whether a check has been
    seen since the last post. *)
Fixpoint checked_before_each_post (permitted : bool) (evs : list event)
    : bool :=
  match evs with
  | [] => true
  | EvPermission _ :: evs' => checked_before_each_post true evs'
  | EvPost :: evs' => permitted && checked_before_each_post false evs'
  | _ :: evs' => checked_before_each_post permitted evs'
  end.

(** The lists of records a JSON output file holds. *)
Definition stored (f : json_file) : list EmailData :=
  match f with
  | Emails l => l
  | Absent | Undecodable => []
  end.

End Composer.

(** ** [app.py]: the pipeline orchestrator *)

Module Orchestrator.

Section Stages.

(** The state the stages act on: the file system and whatever else the
    stage scripts touch. *)
Variable W : Type.

(** What calling [module.main()] does. *)
Inductive main_result :=
| Raises                       (* an exception escapes [main] *)
| ReturnsNone
| Returns (truthy : bool).     (* a value other than [None], and its [bool] *)

(** A loaded module: it may or may not have a callable [main]. *)
Record Module_ := mkModule {
  main_fn : option (W -> main_result * W)
}.

(** An entry of the list [modules]. *)
Record module_info := mkInfo {
  name : string;
  path_exists : W -> bool;               (* [module_path.exists()] *)
  load : W -> option Module_ * W         (* [load_module]; [None] on error *)
}.

(** What the orchestrator did, in order. *)
Inductive step :=
| Started (module_name : string)     (* the loop entered the stage *)
| Loaded (module_name : string)      (* [load_module] was called *)
| Called (module_name : string).     (* [module.main()] was called *)

Definition step_name (e : step) : string :=
  match e with
  | Started n | Loaded n | Called n => n
  end.

(** The parts of what a run gives: success, final state, steps taken. *)
Definition result_of (r : bool * W * list step) : bool := fst (fst r).
Definition state_of (r : bool * W * list step) : W := snd (fst r).
Definition steps_of (r : bool * W * list step) : list step := snd r.

(** [run_module(module, module_name)] *)
Definition run_module (module : option Module_) (module_name : string)
    (w : W) : bool * W * list step :=
  match module with
  | None => (false, w, [])
  | Some m =>
    match main_fn m with
    | Some main =>
      let '(result, w') := main w in
      (match result with
       | Raises => false
       | ReturnsNone => true
       | Returns b => b
       end, w', [Called module_name])
    | None => (false, w, [])
    end
  end.

(** One iteration of the loop of [main]: the success of the stage, the
    state after it and what was done. *)
Definition run_stage (module_info : module_info) (w : W)
    : bool * W * list step :=
  let module_name := name module_info in
  if negb (path_exists module_info w) then
    (false, w, [Started module_name])
  else
    let '(module, w1) := load module_info w in
    let '(success, w2, steps) := run_module module module_name w1 in
    (success, w2, Started module_name :: Loaded module_name :: steps).

(** The loop of [main] over [modules]: [return False] at the first stage
    that does not succeed, [return True] after the last. *)
Fixpoint main (modules : list module_info) (w : W) : bool * W * list step :=
  match modules with
  | [] => (true, w, [])
  | module_info :: rest =>
    let '(success, w', steps) := run_stage module_info w in
    if negb success then (false, w', steps)
    else
      let '(ok, w'', steps') := main rest w' in
      (ok, w'', steps ++ steps')
  end.

(** Every stage of the list succeeds when run in turn from [w]. *)
Fixpoint all_succeed (modules : list module_info) (w : W) : Prop :=
  match modules with
  | [] => True
  | module_info :: rest =>
    fst (fst (run_stage module_info w)) = true
    /\ all_succeed rest (snd (fst (run_stage module_info w)))
  end.

End Stages.

Arguments mkModule {W} main_fn.
Arguments mkInfo {W} name path_exists load.
Arguments name {W} m.
Arguments path_exists {W} m w.
Arguments load {W} m w.
Arguments main_fn {W} m.
Arguments result_of {W} r.
Arguments state_of {W} r.
Arguments steps_of {W} r.
Arguments run_stage {W} module_info w.
Arguments main {W} modules w.
Arguments all_succeed {W} modules w.

End Orchestrator.

(** ** Concrete runs used below *)

Module Scenarios.
Import Time RateLimiter Text Composer.

(** A lead with a name and an address to write to. *)
Definition acme : Lead :=
  [("name"%string, s "Acme GmbH"); ("emails"%string, s "info@acme.de")].

(** A network on which every post fails in transport after 250 ms. *)
Definition network_down : nat -> timedelta * post_outcome :=
  fun _ => (250000, RequestException (s "Connection refused")).

(** A network whose first post fails in transport and whose later posts
    succeed with a generated text and a usage report. *)
Definition generated_text : str :=
  s "Betreff: Visualisierung" ++ nl :: s "Sehr geehrte Damen und Herren".

Definition network_flaky : nat -> timedelta * post_outcome :=
  fun n =>
    match n with
    | O => (250000, RequestException (s "Connection reset"))
    | _ => (900000,
            Responds (mkResponse 200 None []
                        (mkResult [Content generated_text] (Some 1300%Q))))
    end.

Definition prompt_words : Lead -> nat := fun _ => 300%nat.

Definition world (network : nat -> timedelta * post_outcome) : World :=
  mkWorld 0 network 0 [] (Emails []).

Definition config : Config :=
  mkConfig (Some [acme]) 6000 (s "sender@example.org").

Definition failure_text : str :=
  s "API Error after 3 attempts: Connection refused".

(** Three stages acting on the list of the names of the stages whose
    [main] ran: [stage_a] succeeds, [stage_b] returns a falsy value and
    [stage_c] would succeed. *)
Definition stage (module_name : string) (result : Orchestrator.main_result)
    : Orchestrator.module_info (list string) :=
  Orchestrator.mkInfo module_name (fun _ => true)
    (fun w =>
       (Some (Orchestrator.mkModule
                (Some (fun w' => (result, w' ++ [module_name])))), w)).

Definition stage_a := stage "A" Orchestrator.ReturnsNone.
Definition stage_b := stage "B" (Orchestrator.Returns false).
Definition stage_c := stage "C" (Orchestrator.Returns true).

End Scenarios.

(** ** More of [email_composer.py]: outcomes of a call, file names, runs
    of updates *)

Module ComposerAux.
Import Time RateLimiter Text Composer.

Definition is_record (e : event) : bool :=
  match e with EvRecord _ => true | _ => false end.

(** How many times a trace records usage against the limiter. *)
Definition usage_records (evs : list event) : nat :=
  List.length (filter is_record evs).

(** What a call can end in: a generated text, cleaned up, with its usage
    recorded once as the last thing done; or an error text, with nothing
    recorded and the limiter as the loop found it. *)
Inductive ending (rl : TokenRateLimiter) (tail : list event)
    : option str -> TokenRateLimiter -> Prop :=
| Generated (text : str) (n : Q) (before : list event) :
    tail = before ++ [EvRecord n] -> usage_records before = 0%nat ->
    ending rl tail (Some (clean_up text)) (record_usage rl n)
| Failed (e : str) :
    usage_records tail = 0%nat ->
    ending rl tail (Some (s "Error: " ++ e)) rl
| GaveUp (e : str) :
    usage_records tail = 0%nat ->
    ending rl tail (Some (s "API Error after 3 attempts: " ++ e)) rl.



(** [update_json_file] called for each record of a list in turn. *)
Definition update_all (ds : list EmailData) (w : World) : World :=
  fold_left (fun w d => snd (update_json_file d w)) ds w.

(** [x.replace(old, new)] for single characters. *)
Definition replace_char (old new : char) (x : str) : str :=
  map (fun c => if N.eqb c old then new else c) x.

Definition space : char := 32%N.
Definition slash : char := 47%N.
Definition backslash : char := 92%N.
Definition underscore : char := 95%N.
Definition hyphen : char := 45%N.

(** The file name [save_email] writes to, lines 212-219; [isalnum] is
    [c.isalnum()]. *)
Section SaveEmail.

Variable isalnum : char -> bool.

Definition safe_name (lead : Lead) : str :=
  let safe_name :=
    replace_char backslash underscore
      (replace_char slash underscore
         (replace_char space underscore
            (get_default lead "name" (s "unknown")))) in
  filter (fun c => isalnum c || N.eqb c underscore || N.eqb c hyphen)
         safe_name.

(** The last component of [file_path]. *)
Definition email_file_name (lead : Lead) : str :=
  safe_name lead ++ s "_email.txt".

End SaveEmail.



(** The leads [main] goes through: none when the CSV file is missing. *)
Definition leads_of (cfg : Config) : list Lead :=
  match leads_csv cfg with
  | Some leads => leads
  | None => []
  end.

(** A lead that [main] passes over: it has no name or no address. *)
Definition skipped (lead : Lead) : bool :=
  negb (truthy (get lead "name") && truthy (get lead "emails")).




(** The events that happened between two worlds of one run. *)
Definition events_since (w w' : World) : list event :=
  skipn (List.length (events w)) (events w').

(** The leads [main] does not pass over. *)
Definition processed_leads (cfg : Config) : list Lead :=
  filter (fun lead => negb (skipped lead)) (leads_of cfg).

(** A stretch of the trace with [n] permission checks and between [n] and
    [3 * n] posts. *)
Definition costs (n : nat) (tail : list event) : Prop :=
  permission_checks tail = n
  /\ (n <= post_attempts tail <= 3 * n)%nat.

End ComposerAux.

(** ** The stages as the orchestrator sees them *)

Module Stages.
Import Composer Orchestrator.

(** The steps of a stage that runs to the call of its [main]. *)
Definition full_steps {W : Type} (m : module_info W) : list step :=
  [Started (name m); Loaded (name m); Called (name m)].


End Stages.

(** ** More [str] operations: splitting, joining, replacing *)

Module TextMore.
Import Text.

(** [x.split(sep)] for a non-empty [sep]: [x] is read from the left,
    [cur] holds (backwards) the piece being read, and [skip] characters of
    a separator just found are still to be passed over. *)
Fixpoint split_go (sep x : str) (skip : nat) (cur : str) : list str :=
  match x with
  | [] => [rev cur]
  | c :: x' =>
    match skip with
    | S k => split_go sep x' k cur
    | O =>
      if startswith x sep
      then rev cur :: split_go sep x' (List.length sep - 1) []
      else split_go sep x' 0 (c :: cur)
    end
  end.

Definition split (x sep : str) : list str := split_go sep x 0 [].

(** [sep.join(parts)] *)
Fixpoint join (sep : str) (parts : list str) : str :=
  match parts with
  | [] => []
  | [p] => p
  | p :: rest => p ++ sep ++ join sep rest
  end.

(** [x.replace(old, new)] for a single character [old]. *)
Definition replace (x : str) (old : char) (new : str) : str :=
  flat_map (fun c => if N.eqb c old then new else [c]) x.

(** The double quote. *)
Definition dq : char := 34%N.

End TextMore.

(** ** [email_sender.py] *)

Module Sender.
Import Text TextMore Composer Orchestrator.

Definition signature_marker : str := s "Mit freundlichen Grüßen".

(** The HTML of one paragraph of [format_html_body]; nothing for a blank
    paragraph. *)
Definition format_paragraph (paragraph : str) : list str :=
  if truthy (Some (strip paragraph)) then
    if contains paragraph signature_marker then
      let sig_parts := split paragraph [nl] in
      let sig_html := s "<p>" ++ hd [] sig_parts ++ s "</p>" in
      let sig_html :=
        if 1 <? len_list sig_parts then
          sig_html
          ++ (s "<p style=" ++ dq :: s "margin-top: 0;" ++ dq :: s ">")
          ++ join (s "<br>") (tl sig_parts)
          ++ s "</p>"
        else sig_html in
      [sig_html]
    else
      [s "<p>" ++ replace paragraph nl (s "<br>") ++ s "</p>"]
  else [].

(** [format_html_body(body_text)] *)
Definition format_html_body (body_text : str) : str :=
  let paragraphs := split body_text [nl; nl] in
  let html_paragraphs := flat_map format_paragraph paragraphs in
  join [nl] html_paragraphs.

(** The paragraphs of a body that are not blank. *)
Definition nonblank_paragraphs (body_text : str) : list str :=
  filter (fun paragraph => truthy (Some (strip paragraph)))
         (split body_text [nl; nl]).

(** How many line breaks a text has. *)
Definition line_breaks (x : str) : nat := count_occ N.eq_dec x nl.

(** The message handed to the SMTP server: its headers, its two bodies and
    the envelope of [sendmail]. *)
Record Message := mkMessage {
  msg_subject : str;
  msg_from : str;
  msg_to : str;
  plain : str;
  html : str;
  envelope_from : str;
  envelope_to : str
}.

(** The f-string [html_content] of [send_test_email]. *)
Definition html_content (original_recipient body_text : str) : str :=
  nl :: s "    <!DOCTYPE html>"
  ++ nl :: s "    <html>"
  ++ nl :: s "      <head>"
  ++ nl :: s "        <meta charset=" ++ dq :: s "UTF-8" ++ dq :: s ">"
  ++ nl :: s "        <style>"
  ++ nl :: s "          body { font-family: Arial, sans-serif; line-height: 1.5; color: #333; }"
  ++ nl :: s "          p { margin-bottom: 15px; }"
  ++ nl :: s "        </style>"
  ++ nl :: s "      </head>"
  ++ nl :: s "      <body>"
  ++ nl :: s "        <div style=" ++ dq
     :: s "background-color: #f8f8f8; padding: 10px; margin-bottom: 20px; border-left: 4px solid #ff9900;"
  ++ dq :: s ">"
  ++ nl :: s "          <strong>TEST EMAIL</strong> - This is a test email for the upcoming campaign. Original recipient would have been: "
  ++ original_recipient
  ++ nl :: s "        </div>"
  ++ nl :: s "        " ++ format_html_body body_text
  ++ nl :: s "      </body>"
  ++ nl :: s "    </html>"
  ++ nl :: s "    ".

(** What the SMTP session of [send_test_email] runs into: an error before
    the server has taken the message, an error after it (in [quit]), or
    none. *)
Inductive smtp_session :=
| Refused
| SentThenFailed
| Delivered.

(** The world of the sender: the lines still to be read from the standard
    input, the SMTP port of the environment, what the next SMTP session will
    do, the messages handed to the server so far, and the world of the
    composer, whose JSON output file the sender reads.  The port is what
    [int(os.environ.get('SMTP_PORT', 587))] gives, [None] when the variable
    holds no integer and [int] raises [ValueError]. *)
Record SenderWorld := mkSenderWorld {
  stdin : list str;
  smtp_port : option Z;
  smtp : smtp_session;
  outbox : list Message;
  composer : World
}.

Definition with_stdin (lines : list str) (w : SenderWorld) : SenderWorld :=
  mkSenderWorld lines (smtp_port w) (smtp w) (outbox w) (composer w).

(** [read_outreach_emails(json_path)]: [None] when the file is missing or
    is not JSON.  The file is the one the composer writes, a list of records
    whose four fields are strings. *)
Definition read_outreach_emails (w : SenderWorld) : option (list EmailData) :=
  match json_output (composer w) with
  | Emails emails => Some emails
  | Absent | Undecodable => None
  end.

(** [send_test_email(email_data, test_recipient)]: the value returned,
    [None] when an exception leaves the call.  The settings are read and the
    message is built before the [try]: a port that is no integer raises
    there.  What the SMTP session raises is caught and gives [False]. *)
Definition send_test_email (email_data : EmailData) (test_recipient : str)
    (w : SenderWorld) : option bool * SenderWorld :=
  match smtp_port w with
  | None => (None, w)
  | Some port =>
    let subject := s "[TEST] " ++ subject email_data in
    let from_email := from email_data in
    let body_text := body email_data in
    let msg :=
      mkMessage subject from_email test_recipient body_text
                (html_content (to email_data) body_text)
                from_email test_recipient in
    match smtp w with
    | Refused => (Some false, w)
    | SentThenFailed =>
      (Some false,
       mkSenderWorld (stdin w) (smtp_port w) (smtp w) (outbox w ++ [msg])
                     (composer w))
    | Delivered =>
      (Some true,
       mkSenderWorld (stdin w) (smtp_port w) (smtp w) (outbox w ++ [msg])
                     (composer w))
    end
  end.

(** A message as [send_test_email] makes it: marked as a test and
    addressed, in its header and in its envelope, to the test recipient. *)
Definition is_test_message (test_recipient : str) (m : Message) : Prop :=
  msg_to m = test_recipient
  /\ envelope_to m = test_recipient
  /\ startswith (msg_subject m) (s "[TEST] ") = true.

(** An answer to a yes/no question, as the two loops of [main] read it:
    [input(...).strip().lower()] is asked for again until it is one of
    "yes", "y", "no", "n".  The result is the answer, [None] when the input
    ends first ([input] raises [EOFError]), and the lines left. *)
Fixpoint ask (lines : list str) : option bool * list str :=
  match lines with
  | [] => (None, [])
  | line :: rest =>
    let response := lower (strip line) in
    if existsb (fun a => if list_eq_dec N.eq_dec response a then true else false)
               [s "yes"; s "y"]
    then (Some true, rest)
    else if existsb (fun a => if list_eq_dec N.eq_dec response a then true else false)
                    [s "no"; s "n"]
    then (Some false, rest)
    else ask rest
  end.

Section SenderMain.

Variable test_recipient : str.

(** [from email_composer import main as run_main_campaign]: what the call
    of the composer's [main] does, and the world it leaves. *)
Variable run_main_campaign : World -> main_result * World.

(** [run_main_campaign()] followed by [break]: the call stands in no [try],
    so what it raises leaves [main]; what it returns is dropped. *)
Definition campaign (w : SenderWorld) : main_result * SenderWorld :=
  let '(result, after) := run_main_campaign (composer w) in
  (match result with
   | Raises => Raises
   | ReturnsNone | Returns _ => ReturnsNone
   end,
   mkSenderWorld (stdin w) (smtp_port w) (smtp w) (outbox w) after).

(** [main()] of the sender: what the call does and the world after it.
    It raises when [input] finds the input at its end, when
    [send_test_email] raises and when the composer's [main] does. *)
Definition main (w : SenderWorld) : main_result * SenderWorld :=
  match read_outreach_emails w with
  | None | Some [] => (ReturnsNone, w)
  | Some (test_email_data :: _) =>
    match ask (stdin w) with
    | (None, rest) => (Raises, with_stdin rest w)
    | (Some false, rest) => (ReturnsNone, with_stdin rest w)
    | (Some true, rest) =>
      match send_test_email test_email_data test_recipient (with_stdin rest w) with
      | (None, w) => (Raises, w)
      | (Some false, w) => (ReturnsNone, w)
      | (Some true, w) =>
        match ask (stdin w) with
        | (None, rest) => (Raises, with_stdin rest w)
        | (Some false, rest) => (ReturnsNone, with_stdin rest w)
        | (Some true, rest) => campaign (with_stdin rest w)
        end
      end
    end
  end.

End SenderMain.

End Sender.

(** ** [leads.py] *)

Module Leads.
Import Text TextMore.

(** A JSON value as [json.loads] gives it; a dict keeps its keys in the
    order of insertion, each key once. *)
#[local] Unset Elimination Schemes.
Inductive json :=
| JNull
| JBool (b : bool)
| JNum (q : Q)
| JStr (x : str)
| JArr (l : list json)
| JObj (d : list (string * json)).
#[local] Set Elimination Schemes.

Definition dict := list (string * json).

(** [d.get(key)] *)
Fixpoint dict_get (d : dict) (key : string) : option json :=
  match d with
  | [] => None
  | (k, v) :: d' => if String.eqb k key then Some v else dict_get d' key
  end.

(** [d[key] = v]: the value changes in place when the key is there, the
    key is added at the end when it is not. *)
Fixpoint dict_set (d : dict) (key : string) (v : json) : dict :=
  match d with
  | [] => [(key, v)]
  | (k, old) :: d' =>
    if String.eqb k key then (k, v) :: d'
    else (k, old) :: dict_set d' key v
  end.

(** [list(d.keys())] *)
Definition keys (d : dict) : list string := map fst d.

(** [key in l] for a list of strings. *)
Definition mem (key : string) (l : list string) : bool :=
  existsb (String.eqb key) l.

(** [bool(v)] *)
Definition truthy_json (v : json) : bool :=
  match v with
  | JNull => false
  | JBool b => b
  | JNum q => negb (Qeq_bool q 0)
  | JStr x => match x with [] => false | _ => true end
  | JArr l => match l with [] => false | _ => true end
  | JObj d => match d with [] => false | _ => true end
  end.

(** The strings of a list of values, if all of them are strings. *)
Fixpoint strings_of (l : list json) : option (list str) :=
  match l with
  | [] => Some []
  | JStr x :: l' => option_map (cons x) (strings_of l')
  | _ :: _ => None
  end.

Definition exclude_columns : list string :=
  ["google_id"; "place_id"; "google_mid"; "phone_number"; "place_link";
   "cid"; "owner_id"; "latitude"; "longitude"; "working_hours";
   "owner_link"; "booking_link"; "reservations_link"; "photos_sample";
   "reviews_link"; "reviews_per_rating"; "photo_count"; "order_link";
   "price_level"; "street_address"; "emails_and_contacts"]%string.

Definition priority_fields : list string :=
  ["business_id"; "name"; "phone_numbers"; "emails"; "social_media"]%string.

(** *** [process_business_data] *)

Section Process.

(** [json.loads] on a string ([None]: it raises [JSONDecodeError]),
    [json.dumps] on a dict, and the characters of a string, each as a
    string. *)
Variable loads : str -> option json.
Variable dumps : dict -> str.
Variable characters : str -> list str.

(** [",".join(v)]; [None] when it raises [TypeError].  A list must hold
    strings only; a string is joined character by character and a dict
    key by key. *)
Definition comma_join (v : json) : option str :=
  match v with
  | JArr l => option_map (join (s ",")) (strings_of l)
  | JStr x => Some (join (s ",") (characters x))
  | JObj d => Some (join (s ",") (map (fun kv => s (fst kv)) d))
  | JNull | JBool _ | JNum _ => None
  end.

(** [if key in contacts and contacts[key]: item[key] = ",".join(contacts[key])] *)
Definition extract (contacts : dict) (key : string) (item : dict)
    : option dict :=
  match dict_get contacts key with
  | Some v =>
    if truthy_json v
    then option_map (fun x => dict_set item key (JStr x)) (comma_join v)
    else Some item
  | None => Some item
  end.

(** The body of the loop over the records; [None] when it raises. *)
Definition process_item (item : json) : option dict :=
  match item with
  | JObj item =>
    let item := dict_set item "emails" (JStr []) in
    let item := dict_set item "phone_numbers" (JStr []) in
    let item := dict_set item "social_media" (JObj []) in
    match dict_get item "emails_and_contacts" with
    | Some c =>
      if truthy_json c then
        let contacts :=
          match c with
          | JStr x => match loads x with Some v => v | None => JObj [] end
          | _ => c
          end in
        match contacts with
        | JObj contacts =>
          match extract contacts "emails" item with
          | None => None
          | Some item =>
            match extract contacts "phone_numbers" item with
            | None => None
            | Some item =>
              let social_media :=
                filter (fun kv =>
                          negb (mem (fst kv) ["emails"; "phone_numbers"]%string)
                          && truthy_json (snd kv))
                       contacts in
              match social_media with
              | [] => Some item
              | _ :: _ =>
                Some (dict_set item "social_media" (JStr (dumps social_media)))
              end
            end
          end
        | _ => None
        end
      else Some item
    | None => Some item
    end
  | _ => None
  end.

(** The loop: the processed records, [None] as soon as one raises. *)
Fixpoint process_items (items : list json) : option (list dict) :=
  match items with
  | [] => Some []
  | item :: rest =>
    match process_item item with
    | None => None
    | Some d => option_map (cons d) (process_items rest)
    end
  end.

(** [process_business_data(data)]: every exception gives the empty list. *)
Definition process_business_data (data : json) : list dict :=
  match data with
  | JObj d =>
    let data_list :=
      match dict_get d "data" with Some v => v | None => JArr [] end in
    if negb (truthy_json data_list) then []
    else
      match data_list with
      | JArr items =>
        match process_items items with
        | Some l => l
        | None => []
        end
      | _ => []
      end
  | _ => []
  end.

End Process.

(** *** [save_to_csv] *)

(** A cell of a written row: the value of the record under the column, or
    the blank that stands for a missing key. *)
Inductive cell :=
| Given (v : json)
| Blank.

Record csv_file := mkCsv {
  header : list string;
  rows : list (list cell)
}.

Definition wanted (field : string) : bool :=
  negb (mem field exclude_columns) && negb (mem field priority_fields).

(** [priority_fields + remaining_fields] *)
Definition fieldnames (first : dict) : list string :=
  priority_fields ++ filter wanted (keys first).

(** [{key: value for key, value in item.items() if key not in exclude_columns}] *)
Definition filtered_item (item : dict) : dict :=
  filter (fun kv => negb (mem (fst kv) exclude_columns)) item.

(** [writer.writerow(rowdict)]: [None] when a key of the row is not a field
    name ([ValueError]); a field the row lacks is left blank. *)
Definition writerow (fieldnames : list string) (rowdict : dict)
    : option (list cell) :=
  if forallb (fun k => mem k fieldnames) (keys rowdict) then
    Some (map (fun f => match dict_get rowdict f with
                        | Some v => Given v
                        | None => Blank
                        end) fieldnames)
  else None.

(** The loop over the records: whether it got through, and the rows
    written. *)
Fixpoint write_rows (fieldnames : list string) (data_list : list dict)
    : bool * list (list cell) :=
  match data_list with
  | [] => (true, [])
  | item :: rest =>
    match writerow fieldnames (filtered_item item) with
    | None => (false, [])
    | Some row =>
      let '(ok, written) := write_rows fieldnames rest in
      (ok, row :: written)
    end
  end.

(** [save_to_csv(data_list, file_path)]: the value returned and the file
    ([None]: no file) after the call. *)
Definition save_to_csv (data_list : list dict) (file : option csv_file)
    : bool * option csv_file :=
  match data_list with
  | [] => (false, file)
  | first :: _ =>
    let fieldnames := fieldnames first in
    let '(ok, written) := write_rows fieldnames data_list in
    (ok, Some (mkCsv fieldnames written))
  end.

(** The cells of a record under the given columns. *)
Definition row_of (fieldnames : list string) (item : dict) : list cell :=
  map (fun f => match dict_get item f with
                | Some v => Given v
                | None => Blank
                end) fieldnames.

(** A record has no key foreign to the field names, once the excluded
    columns are left out: [writerow] accepts it. *)
Definition conforming (fieldnames : list string) (item : dict) : bool :=
  forallb (fun k => mem k fieldnames) (keys (filtered_item item)).

(** The longest beginning of a list of records that all fit. *)
Fixpoint fitting (fn : list string) (data : list dict) : list dict :=
  match data with
  | [] => []
  | item :: rest => if conforming fn item then item :: fitting fn rest else []
  end.

(** The three fields [process_business_data] sets. *)
Definition contact_fields : list string :=
  ["emails"; "phone_numbers"; "social_media"]%string.

(** A record [r] is the record [d] processed: every other field is as it
    was, the e-mail addresses and the phone numbers are strings, and the
    social media are the empty dict or a string. *)
Definition processed (d r : dict) : Prop :=
  (forall k : string, ~ In k contact_fields -> dict_get r k = dict_get d k)
  /\ (exists e, dict_get r "emails" = Some (JStr e))
  /\ (exists p, dict_get r "phone_numbers" = Some (JStr p))
  /\ (dict_get r "social_media" = Some (JObj [])
      \/ exists x, dict_get r "social_media" = Some (JStr x)).

(** *** [main] *)

Section Main.

Variable loads : str -> option json.
Variable dumps : dict -> str.
Variable characters : str -> list str.

(** [main()], from what [fetch_business_data] returned ([None] on a failed
    request) and the CSV file as it was. *)
Definition main (fetched : option json) (file : option csv_file)
    : bool * option csv_file :=
  match fetched with
  | None => (false, file)
  | Some data =>
    if negb (truthy_json data) then (false, file)
    else
      match process_business_data loads dumps characters data with
      | [] => (false, file)
      | data_list =>
        let '(success, file) := save_to_csv data_list file in
        if negb success then (false, file) else (true, file)
      end
  end.

End Main.

(** *** Records used below *)

Definition business_1 : dict :=
  [("business_id"%string, JStr (s "b1")); ("name"%string, JStr (s "Acme"));
   ("google_id"%string, JStr (s "g1")); ("rating"%string, JNum (9 # 2))].

Definition business_2 : dict :=
  [("name"%string, JStr (s "Bau")); ("business_id"%string, JStr (s "b2"))].

Definition business_3 : dict :=
  [("business_id"%string, JStr (s "b3")); ("website"%string, JStr (s "w"))].

Definition api_answer : json :=
  JObj [("status"%string, JStr (s "OK"));
        ("data"%string,
         JArr [JObj (business_1
                     ++ [("emails_and_contacts"%string,
                          JObj [("emails"%string,
                                 JArr [JStr (s "a@acme.de");
                                       JStr (s "b@acme.de")]);
                                ("facebook"%string, JStr (s "fb/acme"))])]);
               JObj [("business_id"%string, JStr (s "b2"));
                     ("name"%string, JStr (s "Bau"));
                     ("rating"%string, JNull)]])].

Definition no_loads : str -> option json := fun _ => None.
Definition some_dumps : dict -> str := fun _ => s "{...}".
Definition one_by_one : str -> list str := map (fun c => [c]).

End Leads.

(** * Properties *)

(** ** The seconds field of a duration *)

Module TimeFacts.
Import Time.

Lemma td_seconds_range (d : timedelta) : 0 <= td_seconds d < 86400.
Proof.
  unfold td_seconds, microseconds_per_day, microseconds_per_second.
  assert (H : 0 <= d mod (86400 * 1000000) < 86400 * 1000000)
    by (apply Z.mod_pos_bound; lia).
  split.
  - apply Z.div_pos; lia.
  - apply Z.div_lt_upper_bound; lia.
Qed.

(** Within the first day the seconds field is the floor of the duration. *)
Lemma td_seconds_small (d : timedelta) :
  0 <= d < microseconds_per_day -> td_seconds d = d / microseconds_per_second.
Proof.
  intros H. unfold td_seconds. now rewrite Z.mod_small.
Qed.

Lemma td_seconds_within_minute (d : timedelta) :
  0 <= d <= minutes 1 -> 0 <= td_seconds d <= 60.
Proof.
  intros H. unfold minutes, microseconds_per_second in H.
  rewrite td_seconds_small
    by (unfold microseconds_per_day, microseconds_per_second; lia).
  unfold microseconds_per_second. split.
  - apply Z.div_pos; lia.
  - apply Z.div_le_upper_bound; lia.
Qed.


End TimeFacts.

(** ** The rate limiter *)

Module LimiterSpec.
Import Time RateLimiter TimeFacts.

Local Open Scope Q_scope.


Lemma not_late (self : TokenRateLimiter) (now : datetime) :
  (now - window_start self <= minutes 1)%Z ->
  (minutes 1 <? now - window_start self)%Z = false.
Proof. intros H. apply Z.ltb_ge. exact H. Qed.

(** A check made within the window leaves the limiter as it is. *)
Lemma request_permission_keeps_state (self : TokenRateLimiter)
    (now : datetime) (est : Q) :
  (now - window_start self <= minutes 1)%Z ->
  snd (request_permission self now est) = self.
Proof.
  intros H. unfold request_permission. rewrite (not_late _ _ H).
  destruct (Qle_bool est (remaining_tokens self)); reflexivity.
Qed.

(** A check made after the window has elapsed opens a new one. *)
Lemma request_permission_late (self : TokenRateLimiter) (now : datetime)
    (est : Q) :
  (minutes 1 < now - window_start self)%Z ->
  request_permission self now est
  = (0%Z, mkLimiter (tokens_per_minute self) 0 now).
Proof.
  intros H. unfold request_permission.
  apply Z.ltb_lt in H. rewrite H. reflexivity.
Qed.
















(** C6, as stated, fails when the check comes more than a minute after the
    window started: the check resets the counter, and the remaining budget
    it shows is the full ceiling, larger than before the usage was
    recorded.  Here the budget goes from 5900 to 6000 although 50 tokens
    were recorded. *)
Lemma record_then_late_check_raises_budget :
  ~ (forall (self : TokenRateLimiter) (x : Q) (now : datetime) (est : Q),
       ~ (remaining_tokens self
            - remaining_after_record_and_check self x now est < x)).
Proof.
  intros H.
  apply (H (mkLimiter 6000 100 0%Z) 50 (Time.seconds_td 61) 1500).
  vm_compute. reflexivity.
Qed.

(** C6, amended.  For whole numbers of tokens (an integer ceiling, an
    integer counter and an integer cost [x], whose sums and differences
    Python computes exactly) and a permission check made no more than one
    minute after the window started, [record_usage(x)] followed by the
    check lowers the apparent remaining budget by exactly [x], hence never
    by less than [x]; the budget shown is again a whole number. *)
Theorem record_then_check_within_window (self : TokenRateLimiter) (x : Q)
    (now : datetime) (estimated_tokens : Q)
    (Hwindow : (now - window_start self <= minutes 1)%Z)
    (Hceiling : whole (tokens_per_minute self))
    (Hused : whole (used_tokens self))
    (Hcost : whole x) :
  remaining_tokens self
    - remaining_after_record_and_check self x now estimated_tokens == x
  /\ ~ (remaining_tokens self
          - remaining_after_record_and_check self x now estimated_tokens < x)
  /\ whole (remaining_after_record_and_check self x now estimated_tokens).
Proof.
  unfold remaining_after_record_and_check.
  rewrite request_permission_keeps_state by exact Hwindow.
  unfold remaining_tokens, record_usage; cbn [tokens_per_minute used_tokens].
  split; [ring | split; [lra|]].
  destruct Hceiling as [c Hc], Hused as [u Hu], Hcost as [n Hn].
  exists (c - (u + n))%Z. rewrite Hc, Hu, Hn.
  unfold Z.sub. rewrite !inject_Z_plus, inject_Z_opp, inject_Z_plus. ring.
Qed.

Lemma record_then_check_within_window_witness :
  let self := mkLimiter 6000 100 0%Z in
  (Time.seconds_td 59 - window_start self <= minutes 1)%Z
  /\ whole (tokens_per_minute self)
  /\ whole (used_tokens self)
  /\ whole 50
  /\ remaining_tokens self
       - remaining_after_record_and_check self 50 (Time.seconds_td 59) 1500
     == 50.
Proof.
  intros self.
  assert (Hw : (Time.seconds_td 59 - window_start self <= minutes 1)%Z)
    by (vm_compute; discriminate).
  assert (Hc : whole (tokens_per_minute self))
    by (exists 6000%Z; reflexivity).
  assert (Hu : whole (used_tokens self)) by (exists 100%Z; reflexivity).
  assert (Hx : whole 50) by (exists 50%Z; reflexivity).
  repeat (split; [assumption|]).
  exact (proj1 (record_then_check_within_window
                  self 50 (Time.seconds_td 59) 1500 Hw Hc Hu Hx)).
Defined.

(** C10.  Once more than one minute has elapsed since the window started,
    [request_permission] returns 0 for every estimated cost, without
    comparing it to the budget: the new window starts empty.  Recording that
    cost then makes the consumed counter equal to it, so a cost above the
    per-minute ceiling drives the counter above the ceiling. *)
Theorem late_request_granted_unchecked (self : TokenRateLimiter)
    (now : datetime) (e : Q)
    (Helapsed : (minutes 1 < now - window_start self)%Z) :
  request_permission self now e
    = (0%Z, mkLimiter (tokens_per_minute self) 0 now)
  /\ used_tokens (record_usage (snd (request_permission self now e)) e) == e
  /\ (tokens_per_minute self < e ->
      tokens_per_minute (record_usage (snd (request_permission self now e)) e)
      < used_tokens (record_usage (snd (request_permission self now e)) e)).
Proof.
  rewrite request_permission_late by exact Helapsed.
  cbn [snd record_usage tokens_per_minute used_tokens].
  split; [reflexivity|]. split; [ring | intros H; lra].
Qed.

Lemma late_request_granted_unchecked_witness :
  let self := mkLimiter 6000 5999 0%Z in
  let now := Time.seconds_td 61 in
  (minutes 1 < now - window_start self)%Z
  /\ fst (request_permission self now 1000000) = 0%Z
  /\ 6000 < used_tokens
              (record_usage (snd (request_permission self now 1000000)) 1000000).
Proof.
  intros self now.
  assert (He : (minutes 1 < now - window_start self)%Z)
    by (vm_compute; reflexivity).
  pose proof (late_request_granted_unchecked self now 1000000 He) as H.
  split; [exact He|]. split.
  - rewrite (proj1 H). reflexivity.
  - apply (proj2 (proj2 H)). vm_compute. reflexivity.
Defined.

End LimiterSpec.

(** ** Strings *)

Module TextFacts.
Import Text.

Lemma startswith_nil (x : str) : startswith x [] = true.
Proof. destruct x; reflexivity. Qed.

Lemma startswith_iff (prefix : str) :
  forall x : str, startswith x prefix = true <-> exists r, x = prefix ++ r.
Proof.
  induction prefix as [|p prefix IH]; intros x.
  - rewrite startswith_nil. split; [intros _; now exists x | reflexivity].
  - destruct x as [|c x]; simpl.
    + split; [discriminate | intros [r Hr]; discriminate].
    + rewrite andb_true_iff, N.eqb_eq, IH. split.
      * intros [-> [r ->]]. now exists r.
      * intros [r Hr]. injection Hr as -> ->. split; [reflexivity | now exists r].
Qed.

Lemma startswith_app (prefix r : str) : startswith (prefix ++ r) prefix = true.
Proof. apply startswith_iff. now exists r. Qed.

Lemma len_nonneg (x : str) : 0 <= len x.
Proof. unfold len. lia. Qed.

Lemma len_app (x y : str) : len (x ++ y) = len x + len y.
Proof. unfold len. rewrite length_app. lia. Qed.

(** [find_from] returns [-1] or the position of the first occurrence. *)
Lemma find_from_spec (sub : str) :
  forall (x : str) (i : Z),
  0 <= i ->
  find_from x sub i = -1
  \/ exists n : nat,
       find_from x sub i = i + Z.of_nat n
       /\ (n <= List.length x)%nat
       /\ startswith (skipn n x) sub = true
       /\ forall k : nat, (k < n)%nat -> startswith (skipn k x) sub = false.
Proof.
  induction x as [|c x IH]; intros i Hi; cbn [find_from].
  - destruct (startswith [] sub) eqn:E.
    + right. exists 0%nat. rewrite Z.add_0_r.
      repeat split; auto; try (intros; simpl; lia).
    + now left.
  - destruct (startswith (c :: x) sub) eqn:E.
    + right. exists 0%nat. rewrite Z.add_0_r.
      repeat split; auto; try (intros; simpl; lia).
    + destruct (IH (i + 1)) as [H | [n [H1 [H2 [H3 H4]]]]]; [lia | now left |].
      right. exists (S n). repeat split.
      * rewrite H1. lia.
      * simpl. lia.
      * exact H3.
      * intros [|k] Hk; [exact E | apply H4; lia].
Qed.

Lemma find_spec (x sub : str) :
  find x sub = -1
  \/ exists n : nat,
       find x sub = Z.of_nat n
       /\ (n <= List.length x)%nat
       /\ startswith (skipn n x) sub = true
       /\ forall k : nat, (k < n)%nat -> startswith (skipn k x) sub = false.
Proof. exact (find_from_spec sub x 0 (Z.le_refl 0)). Qed.

(** The first occurrence of a character that is not in what precedes it. *)
Lemma find_from_char (c : char) (r : str) :
  forall (l : str) (i : Z),
  ~ In c l -> find_from (l ++ c :: r) [c] i = i + len l.
Proof.
  induction l as [|a l IH]; intros i Hl.
  - cbn [app find_from startswith]. rewrite N.eqb_refl.
    cbn [andb]. rewrite startswith_nil. unfold len. cbn [List.length]. lia.
  - cbn [app find_from startswith].
    destruct (N.eqb a c) eqn:E.
    + apply N.eqb_eq in E. subst. exfalso. apply Hl. now left.
    + cbn [andb]. rewrite IH by (intros H; apply Hl; now right).
      unfold len. cbn [List.length]. lia.
Qed.

(** When [find_from] answers [-1] there is no occurrence at all. *)
Lemma find_from_absent (sub : str) :
  forall (x : str) (i : Z),
  0 <= i -> find_from x sub i = -1 ->
  forall k : nat, (k <= List.length x)%nat ->
    startswith (skipn k x) sub = false.
Proof.
  induction x as [|c x IH]; intros i Hi; cbn [find_from].
  - destruct (startswith [] sub) eqn:E; [lia|].
    intros _ k Hk. cbn [List.length] in Hk.
    replace k with 0%nat by lia. exact E.
  - destruct (startswith (c :: x) sub) eqn:E; [lia|].
    intros H [|k] Hk; [exact E|].
    cbn [skipn]. apply (IH (i + 1)); [lia | exact H |].
    cbn [List.length] in Hk. lia.
Qed.

(** A text in which [sub] occurs is one where [find] finds it. *)
Lemma find_occurrence (a sub b : str) : find (a ++ sub ++ b) sub <> -1.
Proof.
  intros H.
  assert (Hlen : (List.length a <= List.length (a ++ sub ++ b))%nat)
    by (rewrite length_app; lia).
  pose proof (find_from_absent sub (a ++ sub ++ b) 0 (Z.le_refl 0) H
                (List.length a) Hlen) as Hk.
  rewrite skipn_app, skipn_all, Nat.sub_diag in Hk. cbn [app skipn] in Hk.
  rewrite startswith_app in Hk. discriminate Hk.
Qed.

Lemma lower_app (x y : str) : lower (x ++ y) = lower x ++ lower y.
Proof. apply flat_map_app. Qed.

Lemma slice_index_inside (x : str) (n : nat) :
  (n <= List.length x)%nat -> slice_index x (Z.of_nat n) = n.
Proof.
  intros H. unfold slice_index, len.
  destruct (Z.of_nat n <? 0) eqn:E; [apply Z.ltb_lt in E; lia|].
  rewrite Z.min_r by lia. apply Nat2Z.id.
Qed.

Lemma slice_from_app (x y : str) : slice_from (x ++ y) (len x) = y.
Proof.
  unfold slice_from, len. rewrite slice_index_inside.
  - rewrite skipn_app, skipn_all, Nat.sub_diag. reflexivity.
  - rewrite length_app. lia.
Qed.

Lemma slice_to_app (x y : str) : slice_to (x ++ y) (len x) = x.
Proof.
  unfold slice_to, len. rewrite slice_index_inside.
  - rewrite firstn_app, firstn_all, Nat.sub_diag. simpl. apply app_nil_r.
  - rewrite length_app. lia.
Qed.

(** Every code point but U+0130 has one code point for its lower case. *)
Lemma lower_char_one (c : char) :
  c <> dotted_capital_i -> exists d : char, lower_char c = [d].
Proof.
  intros Hc. unfold lower_char.
  destruct ((65 <=? c) && (c <=? 90))%N; [eauto|].
  destruct ((192 <=? c) && (c <=? 222) && negb (c =? 215))%N; [eauto|].
  destruct (c =? dotted_capital_i)%N eqn:E;
    [apply N.eqb_eq in E; contradiction|].
  destruct (c =? 8490)%N; eauto.
Qed.

(** Lower-casing a text without U+0130 keeps every position. *)
Lemma lower_skipn (x : str) :
  ~ In dotted_capital_i x ->
  forall n : nat, lower (skipn n x) = skipn n (lower x).
Proof.
  induction x as [|c x IH]; intros Hx n.
  - now rewrite !skipn_nil.
  - destruct n as [|n]; [reflexivity|].
    destruct (lower_char_one c) as [d Hd];
      [intros ->; apply Hx; now left|].
    change (lower (c :: x)) with (lower_char c ++ lower x).
    rewrite Hd. cbn [skipn app]. apply IH. intros H. apply Hx. now right.
Qed.

Lemma lower_length (x : str) :
  ~ In dotted_capital_i x -> List.length (lower x) = List.length x.
Proof.
  induction x as [|c x IH]; intros Hx; [reflexivity|].
  destruct (lower_char_one c) as [d Hd]; [intros ->; apply Hx; now left|].
  change (lower (c :: x)) with (lower_char c ++ lower x).
  rewrite Hd. cbn [app List.length]. f_equal. apply IH.
  intros H. apply Hx. now right.
Qed.

Lemma strip_space_first (c : char) (x : str) :
  isspace c = true -> strip (c :: x) = strip x.
Proof. intros H. unfold strip. simpl. now rewrite H. Qed.

End TextFacts.

(** ** The composer: clean-up and parsing *)

Module ComposerSpec.
Import Time RateLimiter Text Composer TextFacts.

(** C7.  The clean-up looks for the marker in the lower-cased text and
    cuts the text itself at the index it finds there.  The lower case of
    U+0130 is two code points, so behind that letter every index of the
    lower-cased text is one too far.  "Hier ist İ Betreff: X" begins with a
    lead-in phrase and has the marker at index 11; in the lower-cased text
    the marker stands at index 12, and the clean-up returns "etreff: X": it
    has cut one character past the marker.  The example of the claim has no
    such letter and is cut at the marker. *)
Theorem clean_up_cuts_past_the_marker :
  let text := s "Hier ist İ Betreff: X" in
  startswith_any (lower text) lead_ins = true
  /\ find text (s "Betreff:") = 11
  /\ find (lower text) (s "betreff:") = 12
  /\ clean_up text = s "etreff: X"
  /\ startswith (lower (clean_up text)) (s "betreff:") = false
  /\ clean_up (s "Hier ist die E-Mail:" ++ nl :: s "Betreff: Hallo"
                 ++ nl :: s "Text")
     = s "Betreff: Hallo" ++ nl :: s "Text".
Proof. vm_compute. repeat split. Qed.

(** The two tests of the clean-up, read on the text itself: it begins with
    a lead-in phrase up to letter case, and "Betreff:" occurs in it. *)
Lemma begins_with_lead_in (text phrase rest : str) :
  In phrase lead_ins -> lower text = phrase ++ rest ->
  startswith_any (lower text) lead_ins = true.
Proof.
  intros Hin Heq. unfold startswith_any. apply existsb_exists.
  exists phrase. split; [exact Hin|].
  apply startswith_iff. now exists rest.
Qed.

Lemma marker_is_found (a b : str) :
  find (lower (a ++ s "Betreff:" ++ b)) (s "betreff:") <> -1.
Proof.
  rewrite !lower_app.
  change (lower (s "Betreff:")) with (s "betreff:").
  apply find_occurrence.
Qed.

(** Text that does not begin with a lead-in phrase is returned as it is. *)
Lemma clean_up_without_lead_in (text : str) :
  startswith_any (lower text) lead_ins = false -> clean_up text = text.
Proof. intros H. unfold clean_up. now rewrite H. Qed.

(** C8, as stated, fails when a line break follows the marker at once: the
    split is not made at the first line break after the marker.  The text
    after the marker is stripped first, which removes the line breaks it
    begins with, and the split is made at the first line break of what is
    left.  For "Betreff:\nHallo\nText" the first line break after the
    marker has nothing before it and "Hallo\nText" after it, and the code
    gives the subject "Hallo" and the body "Text". *)
Lemma parse_email_content_skips_blank_lines :
  ~ (forall before subject rest : str,
       find (before ++ s "Betreff:" ++ subject ++ nl :: rest) (s "Betreff:")
       = len before ->
       ~ In nl subject ->
       parse_email_content (before ++ s "Betreff:" ++ subject ++ nl :: rest)
       = (strip subject, strip rest)).
Proof.
  intros H.
  specialize (H [] [] (s "Hallo" ++ nl :: s "Text")
                (eq_refl : find (s "Betreff:" ++ nl :: s "Hallo"
                                   ++ nl :: s "Text") (s "Betreff:") = 0)
                (fun H0 => H0)).
  vm_compute in H. discriminate H.
Qed.

(** C8, amended.  [parse_email_content] locates the first "Betreff:", strips
    the text after it, and splits that at its first line break: the subject
    is what stands before the line break and the body what stands after it,
    both stripped.  "Betreff: Hallo\nLiebe Grüße" yields the subject
    "Hallo" and the body "Liebe Grüße". *)
Theorem parse_email_content_splits (before after l r : str)
    (Hfirst : find (before ++ s "Betreff:" ++ after) (s "Betreff:")
              = len before)
    (Hcontent : strip after = l ++ nl :: r)
    (Hline : ~ In nl l) :
  parse_email_content (before ++ s "Betreff:" ++ after) = (strip l, strip r)
  /\ parse_email_content (s "Betreff: Hallo" ++ nl :: s "Liebe Grüße")
     = (s "Hallo", s "Liebe Grüße").
Proof.
  split; [|vm_compute; reflexivity].
  pose proof (len_nonneg before) as Hb.
  unfold parse_email_content, contains, split_once. rewrite Hfirst.
  replace (len before =? -1) with false by (symmetry; apply Z.eqb_neq; lia).
  cbn [negb]. cbv zeta.
  replace (slice_from (before ++ s "Betreff:" ++ after)
             (len before + len (s "Betreff:"))) with after
    by (rewrite app_assoc, <- len_app; symmetry; apply slice_from_app).
  rewrite Hcontent.
  assert (Hidx : find (l ++ nl :: r) [nl] = len l)
    by (unfold find; rewrite find_from_char by exact Hline; lia).
  rewrite Hidx.
  pose proof (len_nonneg l) as Hl.
  replace (len l =? -1) with false by (symmetry; apply Z.eqb_neq; lia).
  cbn [negb]. rewrite slice_to_app, slice_from_app.
  rewrite strip_space_first by reflexivity. reflexivity.
Qed.

Lemma parse_email_content_splits_witness :
  let before := s "Hallo, " in
  let after := s "  Neue Fassade  " ++ nl :: nl :: s "Guten Tag" ++ [nl] in
  find (before ++ s "Betreff:" ++ after) (s "Betreff:") = len before
  /\ strip after = s "Neue Fassade  " ++ nl :: nl :: s "Guten Tag"
  /\ ~ In nl (s "Neue Fassade  ")
  /\ parse_email_content (before ++ s "Betreff:" ++ after)
     = (s "Neue Fassade", s "Guten Tag").
Proof.
  intros before after.
  assert (Hf : find (before ++ s "Betreff:" ++ after) (s "Betreff:")
               = len before) by (vm_compute; reflexivity).
  assert (Hc : strip after = s "Neue Fassade  " ++ nl :: nl :: s "Guten Tag")
    by (vm_compute; reflexivity).
  assert (Hl : ~ In nl (s "Neue Fassade  ")).
  { intros H. vm_compute in H.
    repeat (destruct H as [H | H]; [discriminate H|]). exact H. }
  repeat (split; [assumption|]).
  exact (proj1 (parse_email_content_splits
                  before after (s "Neue Fassade  ")
                  (nl :: s "Guten Tag") Hf Hc Hl)).
Defined.

(** Without the marker the whole text is the body and the subject is
    empty. *)
Lemma parse_email_content_without_marker (text : str) :
  find text (s "Betreff:") = -1 -> parse_email_content text = ([], text).
Proof.
  intros H. unfold parse_email_content, contains. rewrite H. reflexivity.
Qed.

(** With the marker and a single line after it, that line is the subject
    and the body is empty. *)
Lemma parse_email_content_single_line (before after : str) :
  find (before ++ s "Betreff:" ++ after) (s "Betreff:") = len before ->
  find (strip after) [nl] = -1 ->
  parse_email_content (before ++ s "Betreff:" ++ after) = (strip after, []).
Proof.
  intros Hfirst Hline.
  pose proof (len_nonneg before) as Hb.
  unfold parse_email_content, contains, split_once. rewrite Hfirst.
  replace (len before =? -1) with false by (symmetry; apply Z.eqb_neq; lia).
  cbn [negb]. cbv zeta.
  replace (slice_from (before ++ s "Betreff:" ++ after)
             (len before + len (s "Betreff:"))) with after
    by (rewrite app_assoc, <- len_app; symmetry; apply slice_from_app).
  rewrite Hline. reflexivity.
Qed.

End ComposerSpec.

(** ** The generation request loop *)

Module GenerationSpec.
Import Time RateLimiter Text Composer TextFacts.

Lemma permission_checks_app (a b : list event) :
  permission_checks (a ++ b) = (permission_checks a + permission_checks b)%nat.
Proof. unfold permission_checks. now rewrite filter_app, length_app. Qed.

Lemma post_attempts_app (a b : list event) :
  post_attempts (a ++ b) = (post_attempts a + post_attempts b)%nat.
Proof. unfold post_attempts. now rewrite filter_app, length_app. Qed.

Lemma events_post (w : World) : events (snd (post w)) = events w ++ [EvPost].
Proof. unfold post. destruct (network w (posts w)). reflexivity. Qed.

Lemma events_sleep (n : Z) (w : World) :
  events (sleep n w) = events w ++ [EvSleep n].
Proof. reflexivity. Qed.

Section Loop.

Variable prompt_words : Lead -> nat.

(** What one run of the loop adds to the trace: no permission check, and
    at least one and at most [todo] posts. *)
Lemma request_loop_trace (todo : nat) :
  forall (attempt : Z) (lead : Lead) (est : Q) (rl : TokenRateLimiter)
         (w : World),
  exists tail : list event,
    events (snd (request_loop todo attempt lead est rl w)) = events w ++ tail
    /\ permission_checks tail = 0%nat
    /\ (post_attempts tail <= todo)%nat
    /\ (todo <> 0%nat -> 1 <= post_attempts tail)%nat.
Proof.
  induction todo as [|todo IH]; intros attempt lead est rl w.
  - exists []. cbn. rewrite app_nil_r. repeat split; auto. congruence.
  - assert (Hstop : forall (v : option str) (rl' : TokenRateLimiter)
                           (extra : list event) (w' : World),
              events w' = events w ++ EvPost :: extra ->
              permission_checks extra = 0%nat -> post_attempts extra = 0%nat ->
              exists tail : list event,
                events (snd (v, rl', w')) = events w ++ tail
                /\ permission_checks tail = 0%nat
                /\ (post_attempts tail <= S todo)%nat
                /\ (S todo <> 0%nat -> 1 <= post_attempts tail)%nat).
    { intros v rl' extra w' He Hp Ha. exists (EvPost :: extra).
      cbn [snd]. split; [exact He|].
      change (EvPost :: extra) with ([EvPost] ++ extra).
      rewrite permission_checks_app, post_attempts_app, Hp, Ha.
      cbn. repeat split; lia. }
    assert (Hnext : forall (n : Z) (w1 : World),
              events w1 = events w ++ [EvPost] ->
              exists tail : list event,
                events (snd (request_loop todo (attempt + 1) lead est rl
                               (sleep n w1))) = events w ++ tail
                /\ permission_checks tail = 0%nat
                /\ (post_attempts tail <= S todo)%nat
                /\ (S todo <> 0%nat -> 1 <= post_attempts tail)%nat).
    { intros n w1 He.
      destruct (IH (attempt + 1) lead est rl (sleep n w1))
        as [tail [Ht [Hp [Hle _]]]].
      exists ([EvPost; EvSleep n] ++ tail).
      rewrite Ht, events_sleep, He, <- !app_assoc.
      split; [reflexivity|].
      rewrite permission_checks_app, post_attempts_app, Hp.
      cbn. repeat split; lia. }
    cbn [request_loop].
    pose proof (events_post w) as Hpost.
    destruct (post w) as [outcome w1]. cbn [snd] in Hpost.
    destruct outcome as [e | e | response].
    + destruct (attempt <? max_retries - 1).
      * apply Hnext. exact Hpost.
      * apply (Hstop _ _ []); [exact Hpost | reflexivity | reflexivity].
    + apply (Hstop _ _ []); [exact Hpost | reflexivity | reflexivity].
    + destruct ((status_code response =? 429) && (attempt <? max_retries - 1)).
      * destruct (retry_after response) as [[n | e] |].
        -- destruct (n <? 0).
           ++ apply (Hstop _ _ []); [exact Hpost | reflexivity | reflexivity].
           ++ apply Hnext. exact Hpost.
        -- apply (Hstop _ _ []); [exact Hpost | reflexivity | reflexivity].
        -- cbn. apply Hnext. exact Hpost.
      * destruct (raises_for_status response).
        -- destruct (attempt <? max_retries - 1).
           ++ apply Hnext. exact Hpost.
           ++ apply (Hstop _ _ []); [exact Hpost | reflexivity | reflexivity].
        -- destruct (choices (json response)) as [|[text | e] rest].
           ++ apply (Hstop _ _ []); [exact Hpost | reflexivity | reflexivity].
           ++ match goal with
              | |- context [log (EvRecord ?n) w1] =>
                apply (Hstop _ _ [EvRecord n])
              end; [cbn; rewrite Hpost, <- app_assoc; reflexivity
                   | reflexivity | reflexivity].
           ++ apply (Hstop _ _ []); [exact Hpost | reflexivity | reflexivity].
Qed.

(** C2, amended.  One call of [generate_email_with_groq] asks the rate
    limiter for permission exactly once, with the estimated cost, before
    the first attempt; the attempts that follow (at least one, at most
    three) are made without a further permission check. *)
Theorem permission_checked_once_per_call (lead : Lead)
    (rate_limiter : TokenRateLimiter) (w : World) :
  exists tail : list event,
    trace_of_call prompt_words lead rate_limiter w
    = EvPermission (estimate prompt_words lead) :: tail
    /\ permission_checks tail = 0%nat
    /\ permission_checks (trace_of_call prompt_words lead rate_limiter w)
       = 1%nat
    /\ (1 <= post_attempts tail <= 3)%nat.
Proof.
  unfold trace_of_call, generate_email_with_groq.
  destruct (request_permission rate_limiter (clock w)
              (estimate prompt_words lead)) as [wait_time rl].
  set (est := estimate prompt_words lead).
  set (w1 := if 0 <? wait_time
             then sleep wait_time (log (EvPermission est) w)
             else log (EvPermission est) w).
  destruct (request_loop_trace (Z.to_nat max_retries) 0 lead est rl w1)
    as [tail [Ht [Hp [Hle Hge]]]].
  assert (Hw1 : exists pre, events w1 = events w ++ EvPermission est :: pre
                            /\ permission_checks pre = 0%nat
                            /\ post_attempts pre = 0%nat).
  { unfold w1. destruct (0 <? wait_time).
    - exists [EvSleep wait_time]. cbn. rewrite <- app_assoc. auto.
    - exists []. cbn. auto. }
  destruct Hw1 as [pre [Hpre [Hpp Hpa]]].
  exists (pre ++ tail).
  rewrite Ht, Hpre, <- app_assoc, skipn_app, skipn_all, Nat.sub_diag.
  cbn [app skipn].
  change (EvPermission est :: pre ++ tail)
    with ([EvPermission est] ++ pre ++ tail).
  rewrite !permission_checks_app, !post_attempts_app, Hpp, Hpa, Hp.
  change (Z.to_nat max_retries) with 3%nat in Hle, Hge.
  pose proof (Hge ltac:(discriminate)) as Hone.
  cbn. repeat split; lia.
Qed.

End Loop.

(** C2, as stated, fails: after a transport failure the request is posted
    again without asking the rate limiter.  On a network whose first post
    fails the call makes two posts after its single permission check. *)
Lemma retry_without_permission_check :
  ~ (forall (prompt_words : Lead -> nat) (lead : Lead)
            (rate_limiter : TokenRateLimiter) (w : World),
       checked_before_each_post false
         (trace_of_call prompt_words lead rate_limiter w) = true).
Proof.
  intros H.
  specialize (H Scenarios.prompt_words Scenarios.acme (init 6000 0)
                (Scenarios.world Scenarios.network_flaky)).
  vm_compute in H. discriminate H.
Qed.

(** The trace of that call. *)
Lemma retry_trace :
  trace_of_call Scenarios.prompt_words Scenarios.acme (init 6000 0)
    (Scenarios.world Scenarios.network_flaky)
  = [EvPermission (Composer.estimate Scenarios.prompt_words Scenarios.acme);
     EvPost; EvSleep 5; EvPost; EvRecord 1300%Q].
Proof. vm_compute. reflexivity. Qed.

(** *** A successful first attempt *)

Section Success.

Variable prompt_words : Lead -> nat.

(** When the first post is answered with status 200 and a generated text,
    the call returns that text cleaned up, and records the reported usage
    (or the estimate, when the answer reports none). *)
Lemma generate_returns_clean_up (lead : Lead) (rl : TokenRateLimiter)
    (w : World) (took : timedelta) (r : Response) (text : str)
    (rest : list choice) :
  network w (posts w) = (took, Responds r) ->
  status_code r = 200 ->
  choices (json r) = Content text :: rest ->
  fst (fst (generate_email_with_groq prompt_words lead rl w))
  = Some (clean_up text).
Proof.
  intros Hnet Hstatus Hchoices. unfold generate_email_with_groq.
  destruct (request_permission rl (clock w) (estimate prompt_words lead))
    as [wait_time rl1].
  change (Z.to_nat max_retries) with 3%nat.
  destruct (0 <? wait_time);
    cbn [request_loop]; unfold post, raises_for_status;
    cbn [network posts sleep advance log];
    rewrite Hnet, Hstatus, Hchoices; reflexivity.
Qed.

End Success.

(** *** Transport failures on every attempt *)

Section TransportFailures.

Variable prompt_words : Lead -> nat.

(** The loop does not touch the JSON output file. *)
Lemma request_loop_json_output (todo : nat) :
  forall (attempt : Z) (lead : Lead) (est : Q) (rl : TokenRateLimiter)
         (w : World),
  json_output (snd (request_loop todo attempt lead est rl w)) = json_output w.
Proof.
  induction todo as [|todo IH]; intros attempt lead est rl w.
  - reflexivity.
  - cbn [request_loop]. unfold post.
    destruct (network w (posts w)) as [took outcome].
    repeat match goal with
           | |- context [match ?x with _ => _ end] => destruct x
           end;
      cbn [snd]; try rewrite IH; reflexivity.
Qed.

Lemma generate_json_output (lead : Lead) (rl : TokenRateLimiter) (w : World) :
  json_output (snd (generate_email_with_groq prompt_words lead rl w))
  = json_output w.
Proof.
  unfold generate_email_with_groq.
  destruct (request_permission rl (clock w) (estimate prompt_words lead))
    as [wait_time rl1].
  rewrite request_loop_json_output. destruct (0 <? wait_time); reflexivity.
Qed.

(** Three transport failures in a row: the loop gives up with the text of
    the last error. *)
Lemma request_loop_transport_failures (lead : Lead) (est : Q)
    (rl : TokenRateLimiter) (w : World) (t0 t1 t2 : timedelta)
    (e0 e1 e2 : str) :
  network w (posts w) = (t0, RequestException e0) ->
  network w (S (posts w)) = (t1, RequestException e1) ->
  network w (S (S (posts w))) = (t2, RequestException e2) ->
  fst (fst (request_loop 3 0 lead est rl w))
  = Some (s "API Error after 3 attempts: " ++ e2).
Proof.
  intros H0 H1 H2.
  cbn [request_loop]. unfold post. rewrite H0.
  change (0 <? max_retries - 1) with true. cbv iota.
  cbn [network posts sleep advance log]. rewrite H1.
  change (0 + 1 <? max_retries - 1) with true. cbv iota.
  cbn [network posts sleep advance log]. rewrite H2.
  change (0 + 1 + 1 <? max_retries - 1) with false. cbv iota.
  reflexivity.
Qed.

Lemma generate_transport_failures (lead : Lead) (rl : TokenRateLimiter)
    (w : World) (t0 t1 t2 : timedelta) (e0 e1 e2 : str) :
  network w (posts w) = (t0, RequestException e0) ->
  network w (S (posts w)) = (t1, RequestException e1) ->
  network w (S (S (posts w))) = (t2, RequestException e2) ->
  fst (fst (generate_email_with_groq prompt_words lead rl w))
  = Some (s "API Error after 3 attempts: " ++ e2).
Proof.
  intros H0 H1 H2. unfold generate_email_with_groq.
  destruct (request_permission rl (clock w) (estimate prompt_words lead))
    as [wait_time rl1].
  change (Z.to_nat max_retries) with 3%nat.
  destruct (0 <? wait_time);
    apply request_loop_transport_failures with t0 t1 t2 e0 e1; assumption.
Qed.

(** The failure text begins with "API Error after", which neither of the
    two prefixes tested by [main] matches. *)
Lemma failure_text_passes_the_test (e : str) :
  let text := s "API Error after 3 attempts: " ++ e in
  truthy (Some text)
  && negb (startswith text (s "Error:"))
  && negb (startswith text (s "API Error:")) = true.
Proof. reflexivity. Qed.

(** For a lead with a name and an address, three transport failures end
    with one more record in the JSON output file: the failure text, taken
    for a generated e-mail. *)
Lemma transport_failures_are_persisted (cfg : Config) (lead : Lead)
    (recipient : str) (rl : TokenRateLimiter) (w : World)
    (t0 t1 t2 : timedelta) (e0 e1 e2 : str) :
  truthy (get lead "name") = true ->
  get lead "emails" = Some recipient -> recipient <> [] ->
  network w (posts w) = (t0, RequestException e0) ->
  network w (S (posts w)) = (t1, RequestException e1) ->
  network w (S (S (posts w))) = (t2, RequestException e2) ->
  let text := s "API Error after 3 attempts: " ++ e2 in
  json_output (snd (process_lead prompt_words cfg (rl, w) lead))
  = Emails (stored (json_output w)
            ++ [mkEmail (fst (parse_email_content text)) (email_from cfg)
                        recipient (snd (parse_email_content text))]).
Proof.
  intros Hname Hmail Hne H0 H1 H2 text.
  assert (Ht : truthy (Some recipient) = true)
    by (destruct recipient; [contradiction | reflexivity]).
  unfold process_lead. cbv zeta. rewrite Hname, Hmail, !Ht. cbn [negb].
  pose proof (generate_transport_failures lead rl w t0 t1 t2 e0 e1 e2
                H0 H1 H2) as Hg.
  pose proof (generate_json_output lead rl w) as Hj.
  destruct (generate_email_with_groq prompt_words lead rl w)
    as [[content rl'] w'].
  cbn [fst snd] in Hg, Hj. subst content.
  pose proof (failure_text_passes_the_test e2) as Hf.
  cbv zeta in Hf. fold text in Hf |- *. rewrite Hf.
  destruct (parse_email_content text) as [subject body].
  unfold update_json_file, save_email. cbn [json_output log snd fst].
  rewrite Hj. reflexivity.
Qed.

End TransportFailures.

(** C1.  A lead with a name and an address, on a network where every post
    fails in transport: [generate_email_with_groq] returns the failure text
    carrying the last error, and [main] appends a record built from that
    text to the JSON output file, which held no record before. *)
Theorem transport_failure_record_appended :
  fst (fst (generate_email_with_groq Scenarios.prompt_words Scenarios.acme
              (init 6000 0) (Scenarios.world Scenarios.network_down)))
  = Some Scenarios.failure_text
  /\ json_output (Scenarios.world Scenarios.network_down) = Emails []
  /\ json_output (Composer.main Scenarios.prompt_words Scenarios.config
                    (Scenarios.world Scenarios.network_down))
     = Emails [mkEmail [] (s "sender@example.org") (s "info@acme.de")
                       Scenarios.failure_text].
Proof. vm_compute. repeat split; reflexivity. Qed.

End GenerationSpec.

(** ** The orchestrator *)

Module OrchestratorSpec.
Import Orchestrator.

Section Stages.

Variable W : Type.

(** A stage succeeds exactly when its file exists, it loads, it has a
    [main], and [main] returns [None] or a truthy value; a missing file, a
    failed load, a missing [main], an exception and a falsy result all
    make it fail. *)
Lemma run_stage_succeeds_iff (m : module_info W) (w : W) :
  result_of (run_stage m w) = true
  <-> path_exists m w = true
      /\ exists md f,
           fst (load m w) = Some md
           /\ main_fn md = Some f
           /\ (fst (f (snd (load m w))) = ReturnsNone
               \/ fst (f (snd (load m w))) = Returns true).
Proof.
  unfold result_of, run_stage, run_module. split.
  - destruct (path_exists m w); cbn [negb]; [|discriminate].
    destruct (load m w) as [[md|] w1]; [|discriminate].
    destruct (main_fn md) as [f|] eqn:Ef; [|discriminate].
    destruct (f w1) as [r w2] eqn:Er. cbn [fst snd]. intros H.
    split; [reflexivity|]. exists md, f. rewrite Er. cbn [fst].
    repeat split; auto.
    destruct r as [| |[|]]; try discriminate; auto.
  - intros [Hp [md [f [Hl [Hm Hr]]]]]. rewrite Hp. cbn [negb].
    destruct (load m w) as [o w1]. cbn [fst snd] in Hl, Hr. subst o.
    rewrite Hm. destruct (f w1) as [r w2]. cbn [fst snd] in Hr |- *.
    destruct Hr; subst r; reflexivity.
Qed.

Lemma run_stage_missing_file (m : module_info W) (w : W) :
  path_exists m w = false -> run_stage m w = (false, w, [Started (name m)]).
Proof. intros H. unfold run_stage. now rewrite H. Qed.

(** A stage only reports steps under its own name. *)
Lemma run_stage_steps (m : module_info W) (w : W) :
  Forall (fun e => step_name e = name m) (steps_of (run_stage m w)).
Proof.
  unfold steps_of, run_stage, run_module.
  destruct (path_exists m w); cbn [negb].
  - destruct (load m w) as [[md|] w1].
    + destruct (main_fn md) as [f|].
      * destruct (f w1) as [r w2]. cbn. repeat constructor.
      * cbn. repeat constructor.
    + cbn. repeat constructor.
  - cbn. repeat constructor.
Qed.

(** The loop over a list that starts with a stage. *)
Lemma main_cons (m : module_info W) (rest : list (module_info W)) (w : W) :
  main (m :: rest) w
  = if result_of (run_stage m w)
    then (result_of (main rest (state_of (run_stage m w))),
          state_of (main rest (state_of (run_stage m w))),
          steps_of (run_stage m w)
          ++ steps_of (main rest (state_of (run_stage m w))))
    else (false, state_of (run_stage m w), steps_of (run_stage m w)).
Proof.
  unfold result_of, state_of, steps_of. cbn [main].
  destruct (run_stage m w) as [[ok w'] steps]. cbn [fst snd].
  destruct ok; cbn [negb]; [|reflexivity].
  destruct (main rest w') as [[ok' w''] steps']. reflexivity.
Qed.

(** The loop succeeds exactly when every stage does. *)
Lemma main_succeeds_iff (modules : list (module_info W)) :
  forall w : W, result_of (main modules w) = true <-> all_succeed modules w.
Proof.
  induction modules as [|m rest IH]; intros w.
  - cbn. tauto.
  - rewrite main_cons. cbn [all_succeed].
    fold (result_of (run_stage m w)). fold (state_of (run_stage m w)).
    destruct (result_of (run_stage m w)).
    + unfold result_of at 1. cbn [fst]. rewrite IH. tauto.
    + unfold result_of at 1. cbn [fst]. split; [discriminate | intros [H _]; discriminate].
Qed.

(** The loop over stages that all succeed, followed by more stages. *)
Lemma main_app (done rest : list (module_info W)) :
  forall w : W,
  all_succeed done w ->
  main (done ++ rest) w
  = (result_of (main rest (state_of (main done w))),
     state_of (main rest (state_of (main done w))),
     steps_of (main done w) ++ steps_of (main rest (state_of (main done w)))).
Proof.
  induction done as [|m done IH]; intros w Hall.
  - unfold result_of, state_of, steps_of. cbn [app main fst snd].
    destruct (main rest w) as [[ok w'] steps]. reflexivity.
  - destruct Hall as [Hm Hrest]. cbn [app main].
    destruct (run_stage m w) as [[ok w'] steps]. cbn [fst snd] in Hm, Hrest.
    subst ok. cbn [negb]. rewrite (IH w' Hrest).
    unfold result_of, state_of, steps_of.
    destruct (main done w') as [[ok1 w1] steps1]. cbn [fst snd].
    destruct (main rest w1) as [[ok2 w2] steps2]. cbn [fst snd].
    rewrite app_assoc. reflexivity.
Qed.

(** The loop only reports steps of stages of its list. *)
Lemma main_steps (modules : list (module_info W)) :
  forall w : W,
  Forall (fun e => In (step_name e) (map name modules))
         (steps_of (main modules w)).
Proof.
  induction modules as [|m rest IH]; intros w.
  - constructor.
  - rewrite main_cons.
    assert (Hm : Forall (fun e => In (step_name e) (map name (m :: rest)))
                        (steps_of (run_stage m w))).
    { eapply Forall_impl; [|apply run_stage_steps].
      intros e He. left. symmetry. exact He. }
    destruct (result_of (run_stage m w)); unfold steps_of at 1; cbn [snd].
    + apply Forall_app. split; [exact Hm|].
      eapply Forall_impl; [|apply IH]. intros e He. right. exact He.
    + exact Hm.
Qed.

(** C9.  The orchestrator runs the stages in the order of the list.  When
    the stages [done] succeed in turn and the next stage fails (its file is
    missing, it does not load, its [main] raises or returns a falsy value),
    the run returns failure in the state that stage left, the steps taken
    are those of [done] followed by those of the failing stage, and the
    stages after it play no part: no step is taken for them.  The run
    returns success exactly when every stage succeeds. *)
Theorem pipeline_stops_at_first_failure
    (done : list (module_info W)) (failing : module_info W)
    (rest : list (module_info W)) (w : W)
    (Hdone : all_succeed done w)
    (Hfail : result_of (run_stage failing (state_of (main done w))) = false) :
  main (done ++ failing :: rest) w
  = (false,
     state_of (run_stage failing (state_of (main done w))),
     steps_of (main done w)
     ++ steps_of (run_stage failing (state_of (main done w))))
  /\ Forall (fun e => In (step_name e) (map name (done ++ [failing])))
            (steps_of (main (done ++ failing :: rest) w))
  /\ (forall (modules : list (module_info W)) (w' : W),
        result_of (main modules w') = true <-> all_succeed modules w').
Proof.
  assert (Hrun : main (done ++ failing :: rest) w
                 = (false,
                    state_of (run_stage failing (state_of (main done w))),
                    steps_of (main done w)
                    ++ steps_of (run_stage failing (state_of (main done w))))).
  { rewrite (main_app done (failing :: rest) w Hdone).
    rewrite (main_cons failing rest), Hfail. reflexivity. }
  split; [exact Hrun|]. split.
  - rewrite Hrun. unfold steps_of at 1. cbn [snd].
    apply Forall_app. split.
    + eapply Forall_impl; [|apply main_steps].
      intros e He. rewrite map_app. apply in_or_app. left. exact He.
    + eapply Forall_impl; [|apply run_stage_steps].
      intros e He. rewrite map_app. apply in_or_app. right.
      left. symmetry. exact He.
  - intros modules w'. apply main_succeeds_iff.
Qed.

End Stages.

(** The scenario of the stages A (success), B (failure), C: A and B run,
    C does not, and the run fails. *)
Lemma pipeline_stops_at_first_failure_witness :
  all_succeed [Scenarios.stage_a] []
  /\ result_of (run_stage Scenarios.stage_b
                  (state_of (main [Scenarios.stage_a] []))) = false
  /\ main [Scenarios.stage_a; Scenarios.stage_b; Scenarios.stage_c] []
     = (false, ["A"; "B"]%string,
        [Started "A"; Loaded "A"; Called "A";
         Started "B"; Loaded "B"; Called "B"]).
Proof.
  assert (Hd : all_succeed [Scenarios.stage_a] (@nil string))
    by (vm_compute; auto).
  assert (Hf : result_of (run_stage Scenarios.stage_b
                            (state_of (main [Scenarios.stage_a] []))) = false)
    by (vm_compute; reflexivity).
  split; [exact Hd|]. split; [exact Hf|].
  exact (proj1 (pipeline_stops_at_first_failure (list string)
                  [Scenarios.stage_a] Scenarios.stage_b [Scenarios.stage_c]
                  [] Hd Hf)).
Defined.

End OrchestratorSpec.

(** ** Outcomes of a call of [generate_email_with_groq] *)

Module GenerationOutcomes.
Import Time RateLimiter Text Composer ComposerAux TextFacts GenerationSpec.

Lemma usage_records_app (a b : list event) :
  usage_records (a ++ b) = (usage_records a + usage_records b)%nat.
Proof. unfold usage_records. now rewrite filter_app, length_app. Qed.

Lemma ending_extend (rl : TokenRateLimiter) (pre tail : list event)
    (r : option str) (rl' : TokenRateLimiter) :
  usage_records pre = 0%nat ->
  ending rl tail r rl' -> ending rl (pre ++ tail) r rl'.
Proof.
  intros Hpre H. destruct H as [text n before Ht Hb | e Ht | e Ht].
  - apply (Generated rl _ text n (pre ++ before)).
    + rewrite Ht. apply app_assoc.
    + rewrite usage_records_app, Hpre, Hb. reflexivity.
  - apply Failed. rewrite usage_records_app, Hpre, Ht. reflexivity.
  - apply GaveUp. rewrite usage_records_app, Hpre, Ht. reflexivity.
Qed.

(** The text returned for an answer without choices is an "Error: " text. *)
Lemma unable_text (x : str) :
  s "Error: Unable to generate email for " ++ x
  = s "Error: " ++ s "Unable to generate email for " ++ x.
Proof. vm_compute. reflexivity. Qed.

(** The loop entered with attempts left up to the ceiling always ends in
    one of the three ways. *)
Lemma request_loop_ending (todo : nat) :
  forall (attempt : Z) (lead : Lead) (est : Q) (rl : TokenRateLimiter)
         (w : World),
  attempt + Z.of_nat todo = max_retries -> todo <> 0%nat ->
  exists tail : list event,
    events (snd (request_loop todo attempt lead est rl w)) = events w ++ tail
    /\ ending rl tail (fst (fst (request_loop todo attempt lead est rl w)))
              (snd (fst (request_loop todo attempt lead est rl w))).
Proof.
  induction todo as [|todo IH]; intros attempt lead est rl w Hsum Hne;
    [congruence|].
  assert (Hstop : forall (r : option str) (rl' : TokenRateLimiter)
                         (extra : list event) (w' : World),
            events w' = events w ++ EvPost :: extra ->
            ending rl (EvPost :: extra) r rl' ->
            exists tail : list event,
              events (snd (r, rl', w')) = events w ++ tail
              /\ ending rl tail (fst (fst (r, rl', w')))
                        (snd (fst (r, rl', w')))).
  { intros r rl' extra w' He Hend. exists (EvPost :: extra).
    cbn [fst snd]. split; [exact He | exact Hend]. }
  assert (Hnext : forall (n : Z) (w1 : World),
            (attempt <? max_retries - 1) = true ->
            events w1 = events w ++ [EvPost] ->
            exists tail : list event,
              events (snd (request_loop todo (attempt + 1) lead est rl
                             (sleep n w1))) = events w ++ tail
              /\ ending rl tail
                   (fst (fst (request_loop todo (attempt + 1) lead est rl
                                (sleep n w1))))
                   (snd (fst (request_loop todo (attempt + 1) lead est rl
                                (sleep n w1))))).
  { intros n w1 Hlt He. apply Z.ltb_lt in Hlt. unfold max_retries in *.
    destruct (IH (attempt + 1) lead est rl (sleep n w1))
      as [tail [Ht Hend]]; [lia | intros ->; cbn in Hsum; lia |].
    exists ([EvPost; EvSleep n] ++ tail).
    rewrite Ht, events_sleep, He, <- !app_assoc.
    split; [reflexivity|]. apply ending_extend; [reflexivity | exact Hend]. }
  cbn [request_loop].
  pose proof (events_post w) as Hpost.
  destruct (post w) as [outcome w1]. cbn [snd] in Hpost.
  destruct outcome as [e | e | response].
  - destruct (attempt <? max_retries - 1) eqn:Hlt.
    + apply Hnext; [reflexivity | exact Hpost].
    + apply (Hstop _ _ []); [exact Hpost | apply GaveUp; reflexivity].
  - apply (Hstop _ _ []); [exact Hpost | apply Failed; reflexivity].
  - destruct (attempt <? max_retries - 1) eqn:Hlt.
    + destruct (status_code response =? 429); cbn [andb].
      * destruct (retry_after response) as [[n | e] |].
        -- destruct (n <? 0).
           ++ apply (Hstop _ _ []); [exact Hpost | apply Failed; reflexivity].
           ++ apply Hnext; [reflexivity | exact Hpost].
        -- apply (Hstop _ _ []); [exact Hpost | apply Failed; reflexivity].
        -- cbv iota beta. destruct (60 <? 0) eqn:E; [discriminate E|].
           apply Hnext; [reflexivity | exact Hpost].
      * destruct (raises_for_status response).
        -- apply Hnext; [reflexivity | exact Hpost].
        -- destruct (choices (json response)) as [|[text | e] rest].
           ++ rewrite unable_text.
              apply (Hstop _ _ []); [exact Hpost | apply Failed; reflexivity].
           ++ match goal with
              | |- context [log (EvRecord ?n) w1] =>
                apply (Hstop _ _ [EvRecord n]);
                  [cbn; rewrite Hpost, <- app_assoc; reflexivity
                  | apply (Generated rl _ text n [EvPost]); reflexivity]
              end.
           ++ apply (Hstop _ _ []); [exact Hpost | apply Failed; reflexivity].
    + rewrite andb_false_r.
      destruct (raises_for_status response).
      * apply (Hstop _ _ []); [exact Hpost | apply GaveUp; reflexivity].
      * destruct (choices (json response)) as [|[text | e] rest].
        -- rewrite unable_text.
           apply (Hstop _ _ []); [exact Hpost | apply Failed; reflexivity].
        -- match goal with
           | |- context [log (EvRecord ?n) w1] =>
             apply (Hstop _ _ [EvRecord n]);
               [cbn; rewrite Hpost, <- app_assoc; reflexivity
               | apply (Generated rl _ text n [EvPost]); reflexivity]
           end.
        -- apply (Hstop _ _ []); [exact Hpost | apply Failed; reflexivity].
Qed.

Section Calls.

Variable prompt_words : Lead -> nat.

(** X1.  Every call of [generate_email_with_groq] returns a text, never
    nothing.  Either it is a generated text, cleaned up, and its usage is
    recorded against the limiter exactly once, as the last step; or it is
    an error text (beginning "Error: " or "API Error after 3 attempts: "),
    nothing is recorded, and the limiter is left as the permission check
    left it. *)
Theorem call_ends_in_text_or_error (lead : Lead) (rl : TokenRateLimiter)
    (w : World) :
  exists tail : list event,
    trace_of_call prompt_words lead rl w
    = EvPermission (estimate prompt_words lead) :: tail
    /\ ending (snd (request_permission rl (clock w)
                      (estimate prompt_words lead)))
              tail
              (fst (fst (generate_email_with_groq prompt_words lead rl w)))
              (snd (fst (generate_email_with_groq prompt_words lead rl w))).
Proof.
  unfold trace_of_call, generate_email_with_groq.
  destruct (request_permission rl (clock w) (estimate prompt_words lead))
    as [wait_time rl1]. cbn [snd].
  set (est := estimate prompt_words lead).
  set (w1 := if 0 <? wait_time
             then sleep wait_time (log (EvPermission est) w)
             else log (EvPermission est) w).
  destruct (request_loop_ending (Z.to_nat max_retries) 0 lead est rl1 w1)
    as [tail [Ht Hend]]; [reflexivity | discriminate |].
  assert (Hw1 : exists pre, events w1 = events w ++ EvPermission est :: pre
                            /\ usage_records pre = 0%nat).
  { unfold w1. destruct (0 <? wait_time).
    - exists [EvSleep wait_time]. cbn. rewrite <- app_assoc. auto.
    - exists []. cbn. auto. }
  destruct Hw1 as [pre [Hpre Hp]].
  exists (pre ++ tail).
  rewrite Ht, Hpre, <- app_assoc, skipn_app, skipn_all, Nat.sub_diag.
  cbn [app skipn]. split; [reflexivity|].
  apply ending_extend; assumption.
Qed.

End Calls.

(** *** Retrying and giving up *)




Section GivingUp.

Variable prompt_words : Lead -> nat.


End GivingUp.


End GenerationOutcomes.

(** ** More on the clean-up and on parsing *)

Module ParsingSpec.
Import Text Composer ComposerAux TextFacts.

(** A text that begins with the marker begins with no lead-in phrase. *)
Lemma marker_is_no_lead_in (x : str) :
  startswith x (s "betreff:") = true -> startswith_any x lead_ins = false.
Proof.
  intros H. apply startswith_iff in H. destruct H as [r ->]. reflexivity.
Qed.

(** What the clean-up does to a text without U+0130, by cases. *)
Lemma clean_up_cases (text : str) :
  ~ In dotted_capital_i text ->
  clean_up text = text
  \/ exists n : nat,
       (n <= List.length text)%nat
       /\ find (lower text) (s "betreff:") = Z.of_nat n
       /\ clean_up text = skipn n text
       /\ startswith (lower (skipn n text)) (s "betreff:") = true
       /\ forall k : nat, (k < n)%nat ->
            startswith (lower (skipn k text)) (s "betreff:") = false.
Proof.
  intros Hplain. unfold clean_up.
  destruct (startswith_any (lower text) lead_ins); [|now left].
  destruct (find_spec (lower text) (s "betreff:"))
    as [Hnone | [n [Hn [Hlen [Hat Hfirst]]]]].
  - rewrite Hnone. now left.
  - right. exists n. rewrite lower_length in Hlen by exact Hplain. rewrite Hn.
    replace (Z.of_nat n =? -1) with false by (symmetry; apply Z.eqb_neq; lia).
    cbn [negb]. unfold slice_from. rewrite slice_index_inside by exact Hlen.
    split; [exact Hlen|]. split; [reflexivity|]. split; [reflexivity|].
    split.
    + rewrite lower_skipn by exact Hplain. exact Hat.
    + intros k Hk. rewrite lower_skipn by exact Hplain. now apply Hfirst.
Qed.

(** X3.  The clean-up only ever drops a beginning of the text: what it
    returns is an end of the text it was given.  And it drops nothing
    unless the lower-cased text begins with a lead-in phrase and holds the
    marker. *)
Theorem clean_up_keeps_an_end (text : str) :
  (exists dropped : str, text = dropped ++ clean_up text)
  /\ (clean_up text = text
      \/ (startswith_any (lower text) lead_ins = true
          /\ find (lower text) (s "betreff:") <> -1)).
Proof.
  unfold clean_up.
  destruct (startswith_any (lower text) lead_ins);
    [|split; [now exists [] | now left]].
  destruct (find (lower text) (s "betreff:") =? -1) eqn:E; cbn [negb].
  - split; [now exists [] | now left].
  - split.
    + exists (slice_to text (find (lower text) (s "betreff:"))).
      unfold slice_to, slice_from. symmetry. apply firstn_skipn.
    + right. split; [reflexivity|]. apply Z.eqb_neq. exact E.
Qed.

(** X25.  A text without the letter U+0130 that begins (in any letter
    case) with one of the lead-in phrases and contains the marker
    "Betreff:" (in any letter case) is cut at the first occurrence of the
    marker: what the clean-up keeps is the text from that occurrence on,
    everything before it is dropped. *)
Theorem clean_up_cuts_plain_text_at_marker (text : str)
    (Hplain : ~ In dotted_capital_i text)
    (Hlead : startswith_any (lower text) lead_ins = true)
    (Hmarker : find (lower text) (s "betreff:") <> -1) :
  exists before : str,
    text = before ++ clean_up text
    /\ len before = find (lower text) (s "betreff:")
    /\ startswith (lower (clean_up text)) (s "betreff:") = true
    /\ forall k : nat, (k < List.length before)%nat ->
         startswith (lower (skipn k text)) (s "betreff:") = false.
Proof.
  destruct (clean_up_cases text Hplain)
    as [Hsame | [n [Hlen [Hn [Hcut [Hat Hfirst]]]]]].
  - exfalso. unfold clean_up in Hsame. rewrite Hlead in Hsame.
    destruct (find_spec (lower text) (s "betreff:"))
      as [Hnone | [n [Hn [Hlen [Hat Hfirst]]]]]; [contradiction|].
    rewrite lower_length in Hlen by exact Hplain.
    rewrite Hn in Hsame.
    replace (Z.of_nat n =? -1) with false in Hsame
      by (symmetry; apply Z.eqb_neq; lia).
    cbn [negb] in Hsame. unfold slice_from in Hsame.
    rewrite slice_index_inside in Hsame by exact Hlen.
    rewrite <- lower_skipn in Hat by exact Hplain. rewrite Hsame in Hat.
    apply marker_is_no_lead_in in Hat. congruence.
  - rewrite Hcut, Hn. exists (firstn n text). repeat split.
    + symmetry. apply firstn_skipn.
    + unfold len. rewrite length_firstn. lia.
    + exact Hat.
    + intros k Hk. apply Hfirst. rewrite length_firstn in Hk. lia.
Qed.

Lemma clean_up_cuts_plain_text_at_marker_witness :
  let text := s "Das ist der Entwurf. BETREFF: Fassaden" in
  ~ In dotted_capital_i text
  /\ startswith_any (lower text) lead_ins = true
  /\ find (lower text) (s "betreff:") <> -1
  /\ exists before : str,
       text = before ++ clean_up text
       /\ len before = find (lower text) (s "betreff:")
       /\ startswith (lower (clean_up text)) (s "betreff:") = true
       /\ forall k : nat, (k < List.length before)%nat ->
            startswith (lower (skipn k text)) (s "betreff:") = false.
Proof.
  intros text.
  assert (Hp : ~ In dotted_capital_i text).
  { intros H. vm_compute in H.
    repeat (destruct H as [H | H]; [discriminate H|]). exact H. }
  assert (Hl : startswith_any (lower text) lead_ins = true)
    by (vm_compute; reflexivity).
  assert (Hm : find (lower text) (s "betreff:") <> -1)
    by (vm_compute; discriminate).
  split; [exact Hp|]. split; [exact Hl|]. split; [exact Hm|].
  exact (clean_up_cuts_plain_text_at_marker text Hp Hl Hm).
Defined.

(** X26.  On a text without the letter U+0130, cleaning up twice is the
    same as cleaning up once: what the clean-up has cut begins with the
    marker and with no lead-in phrase. *)
Theorem clean_up_twice_on_plain_text (text : str)
    (Hplain : ~ In dotted_capital_i text) :
  clean_up (clean_up text) = clean_up text.
Proof.
  destruct (clean_up_cases text Hplain) as [H | [n [_ [_ [H [Hat _]]]]]].
  - now rewrite !H.
  - rewrite H. unfold clean_up at 1.
    rewrite (marker_is_no_lead_in _ Hat). reflexivity.
Qed.

Lemma clean_up_twice_on_plain_text_witness :
  let text := s "Hier ist die E-Mail: Betreff: Hallo" in
  ~ In dotted_capital_i text
  /\ clean_up text = s "Betreff: Hallo"
  /\ clean_up (clean_up text) = clean_up text.
Proof.
  intros text.
  assert (Hp : ~ In dotted_capital_i text).
  { intros H. vm_compute in H.
    repeat (destruct H as [H | H]; [discriminate H|]). exact H. }
  split; [exact Hp|]. split; [vm_compute; reflexivity|].
  exact (clean_up_twice_on_plain_text text Hp).
Defined.

(** With the letter U+0130 a second clean-up may cut again: the first one
    cuts eight characters past the first marker and leaves a text that
    begins with a lead-in phrase and holds a second marker. *)
Lemma clean_up_twice_cuts_again :
  let text := s "Hier ist İİİİİİİİ Betreff:Hier ist X Betreff: Y" in
  clean_up text = s "Hier ist X Betreff: Y"
  /\ clean_up (clean_up text) = s "Betreff: Y".
Proof. vm_compute. split; reflexivity. Qed.

(** *** Stripping *)

Lemma lstrip_nonspace (c : char) (x : str) :
  isspace c = false -> lstrip (c :: x) = c :: x.
Proof. intros H. cbn [lstrip]. now rewrite H. Qed.

Lemma lstrip_space (c : char) (x : str) :
  isspace c = true -> lstrip (c :: x) = lstrip x.
Proof. intros H. cbn [lstrip]. now rewrite H. Qed.

Lemma lstrip_length (x : str) : (List.length (lstrip x) <= List.length x)%nat.
Proof.
  induction x as [|c x IH]; [apply Nat.le_refl|].
  cbn [lstrip]. destruct (isspace c); cbn [List.length]; lia.
Qed.

(** What is left of a text after [lstrip] begins with no white space. *)
Lemma lstrip_begins (x : str) :
  lstrip x = [] \/ exists c r, lstrip x = c :: r /\ isspace c = false.
Proof.
  induction x as [|c x IH]; [now left|].
  cbn [lstrip]. destruct (isspace c) eqn:E; [exact IH|].
  right. now exists c, x.
Qed.

Lemma lstrip_fixed_begins (x : str) :
  lstrip x = x -> x = [] \/ exists c r, x = c :: r /\ isspace c = false.
Proof.
  intros H. destruct (lstrip_begins x) as [E | [c [r [E Hc]]]];
    rewrite H in E; [now left | right; now exists c, r].
Qed.

Lemma lstrip_snoc_nonspace (c : char) (a : str) :
  isspace c = false -> lstrip (a ++ [c]) = lstrip a ++ [c].
Proof.
  intros H. induction a as [|d a IH]; cbn [app lstrip].
  - now rewrite H.
  - destruct (isspace d); [exact IH | reflexivity].
Qed.

Lemma rstrip_snoc_space (c : char) (x : str) :
  isspace c = true -> rstrip (x ++ [c]) = rstrip x.
Proof.
  intros H. unfold rstrip. rewrite rev_app_distr. cbn [rev app].
  now rewrite lstrip_space.
Qed.

Lemma rstrip_snoc_nonspace (c : char) (x : str) :
  isspace c = false -> rstrip (x ++ [c]) = x ++ [c].
Proof.
  intros H. unfold rstrip. rewrite rev_app_distr. cbn [rev app].
  rewrite lstrip_nonspace by exact H. cbn [rev]. now rewrite rev_involutive.
Qed.

Lemma rstrip_cons_nonspace (c : char) (x : str) :
  isspace c = false -> rstrip (c :: x) = c :: rstrip x.
Proof.
  intros H. unfold rstrip. cbn [rev].
  rewrite lstrip_snoc_nonspace by exact H.
  rewrite rev_app_distr. reflexivity.
Qed.

Lemma rstrip_length (x : str) : (List.length (rstrip x) <= List.length x)%nat.
Proof.
  unfold rstrip. rewrite length_rev.
  apply Nat.le_trans with (List.length (rev x)); [apply lstrip_length|].
  rewrite length_rev. apply Nat.le_refl.
Qed.

Lemma lstrip_idem (x : str) : lstrip (lstrip x) = lstrip x.
Proof.
  destruct (lstrip_begins x) as [E | [c [r [E Hc]]]]; rewrite E;
    [reflexivity | now apply lstrip_nonspace].
Qed.

Lemma rstrip_idem (x : str) : rstrip (rstrip x) = rstrip x.
Proof. unfold rstrip. now rewrite rev_involutive, lstrip_idem. Qed.

(** Stripping the end of a text that begins with no white space leaves the
    beginning alone. *)
Lemma lstrip_rstrip_fixed (y : str) :
  lstrip y = y -> lstrip (rstrip y) = rstrip y.
Proof.
  intros H. destruct (lstrip_fixed_begins y H) as [-> | [c [r [-> Hc]]]].
  - reflexivity.
  - rewrite rstrip_cons_nonspace by exact Hc. now apply lstrip_nonspace.
Qed.

Lemma strip_idem (x : str) : strip (strip x) = strip x.
Proof.
  unfold strip.
  rewrite (lstrip_rstrip_fixed (lstrip x) (lstrip_idem x)).
  apply rstrip_idem.
Qed.

(** A text that stripping leaves alone begins and ends with no white
    space. *)
Lemma stripped_both_ends (x : str) :
  strip x = x -> lstrip x = x /\ rstrip x = x.
Proof.
  intros H. split.
  - rewrite <- H at 2. rewrite <- H at 1. unfold strip.
    rewrite (lstrip_rstrip_fixed (lstrip x) (lstrip_idem x)). reflexivity.
  - rewrite <- H. unfold strip. apply rstrip_idem.
Qed.

Lemma rstrip_fixed_ends (x : str) :
  rstrip x = x -> x = [] \/ exists a c, x = a ++ [c] /\ isspace c = false.
Proof.
  intros H. destruct (rev x) as [|c a] eqn:E.
  - left. apply (f_equal (@rev char)) in E. now rewrite rev_involutive in E.
  - right. exists (rev a), c.
    assert (Hx : x = rev a ++ [c])
      by (apply (f_equal (@rev char)) in E; now rewrite rev_involutive in E).
    split; [exact Hx|].
    destruct (isspace c) eqn:Hc; [|reflexivity]. exfalso.
    rewrite Hx, rstrip_snoc_space in H by exact Hc.
    pose proof (rstrip_length (rev a)) as Hl.
    rewrite H, length_app in Hl. cbn in Hl. lia.
Qed.

Lemma in_lstrip (c : char) (x : str) : In c (lstrip x) -> In c x.
Proof.
  induction x as [|d x IH]; [auto|].
  cbn [lstrip]. destruct (isspace d); [intros H; right; auto | auto].
Qed.

Lemma in_strip (c : char) (x : str) : In c (strip x) -> In c x.
Proof.
  unfold strip, rstrip. intros H.
  apply in_rev in H. apply in_lstrip in H. apply in_rev in H.
  now apply in_lstrip.
Qed.

(** *** Occurrences of a character *)

Lemma no_char_before (c : char) :
  forall (k : nat) (x : str),
  (forall j : nat, (j < k)%nat -> startswith (skipn j x) [c] = false) ->
  ~ In c (firstn k x).
Proof.
  induction k as [|k IH]; intros x H; [cbn; auto|].
  destruct x as [|a x]; [cbn; auto|].
  cbn [firstn]. intros [Ha | Hin].
  - specialize (H 0%nat (Nat.lt_0_succ k)). cbn [skipn startswith] in H.
    subst a. rewrite N.eqb_refl, startswith_nil in H. discriminate H.
  - apply (IH x); [|exact Hin].
    intros j Hj. apply (H (S j)). lia.
Qed.

Lemma find_char_absent (c : char) (x : str) : find x [c] = -1 -> ~ In c x.
Proof.
  intros H.
  pose proof (find_from_absent [c] x 0 (Z.le_refl 0) H) as Ha.
  rewrite <- (firstn_all x). apply no_char_before.
  intros j Hj. apply Ha. lia.
Qed.

Lemma find_char_absent_iff (c : char) (x : str) :
  ~ In c x -> find x [c] = -1.
Proof.
  intros H. destruct (find_spec x [c]) as [E | [n [_ [Hn [Hat _]]]]];
    [exact E|]. exfalso. apply startswith_iff in Hat. destruct Hat as [r Hr].
  apply H. rewrite <- (firstn_skipn n x), Hr.
  apply in_or_app. right. now left.
Qed.

(** *** [parse_email_content], by cases *)

Lemma parse_email_content_cases (text : str) :
  parse_email_content text = ([], text)
  \/ exists content : str,
       strip content = content
       /\ ((find content [nl] = -1
            /\ parse_email_content text = (content, []))
           \/ exists k : nat,
                (forall j : nat, (j < k)%nat ->
                   startswith (skipn j content) [nl] = false)
                /\ parse_email_content text
                   = (strip (firstn k content), strip (skipn k content))).
Proof.
  unfold parse_email_content, contains, split_once.
  destruct (find_spec text (s "Betreff:")) as [E | [n [E [Hn [Hat _]]]]];
    rewrite E; [now left|].
  replace (Z.of_nat n =? -1) with false by (symmetry; apply Z.eqb_neq; lia).
  cbn [negb]. cbv zeta.
  set (content := strip (slice_from text (Z.of_nat n + len (s "Betreff:")))).
  right. exists content. split; [apply strip_idem|].
  destruct (find_spec content [nl]) as [F | [k [F [Hk [_ Hfirst]]]]];
    rewrite F.
  - left. split; reflexivity.
  - right. exists k. split; [exact Hfirst|].
    replace (Z.of_nat k =? -1) with false by (symmetry; apply Z.eqb_neq; lia).
    cbn [negb]. unfold slice_to, slice_from.
    rewrite slice_index_inside by exact Hk. reflexivity.
Qed.

(** X4.  The subject [parse_email_content] returns is a single line with no
    white space around it: it holds no line break and stripping leaves it
    as it is.  The body is the whole text, when there is no marker, or it
    is stripped as well. *)
Theorem parsed_subject_is_one_line (text : str) :
  ~ In nl (fst (parse_email_content text))
  /\ strip (fst (parse_email_content text)) = fst (parse_email_content text)
  /\ (snd (parse_email_content text) = text
      \/ strip (snd (parse_email_content text))
         = snd (parse_email_content text)).
Proof.
  destruct (parse_email_content_cases text)
    as [H | [content [Hc [[F H] | [k [Hfirst H]]]]]]; rewrite H; cbn [fst snd].
  - split; [cbn; auto|]. split; [reflexivity | now left].
  - split; [now apply find_char_absent|]. split; [exact Hc | now right].
  - split.
    + intros Hin. apply in_strip in Hin.
      exact (no_char_before nl k content Hfirst Hin).
    + split; [apply strip_idem | right; apply strip_idem].
Qed.

Lemma find_at_start (sub r : str) : find (sub ++ r) sub = 0.
Proof.
  unfold find. pose proof (startswith_app sub r) as H.
  destruct (sub ++ r); cbn [find_from]; now rewrite H.
Qed.

(** The text after the marker, stripped and split at a line break that no
    line break precedes. *)
Lemma parse_email_content_at_line_break (after l r : str) :
  strip after = l ++ nl :: r -> ~ In nl l ->
  parse_email_content (s "Betreff:" ++ after) = (strip l, strip r).
Proof.
  intros Hcontent Hline.
  unfold parse_email_content, contains, split_once.
  rewrite find_at_start. cbn [Z.eqb negb]. cbv zeta.
  replace (slice_from (s "Betreff:" ++ after) (0 + len (s "Betreff:")))
    with after by (symmetry; apply slice_from_app).
  rewrite Hcontent.
  assert (Hidx : find (l ++ nl :: r) [nl] = len l)
    by (unfold find; rewrite find_from_char by exact Hline; lia).
  rewrite Hidx. pose proof (len_nonneg l) as Hl.
  replace (len l =? -1) with false by (symmetry; apply Z.eqb_neq; lia).
  cbn [negb]. rewrite slice_to_app, slice_from_app.
  rewrite strip_space_first by reflexivity. reflexivity.
Qed.

Lemma parse_email_content_one_line (after : str) :
  ~ In nl (strip after) ->
  parse_email_content (s "Betreff:" ++ after) = (strip after, []).
Proof.
  intros Hline.
  unfold parse_email_content, contains, split_once.
  rewrite find_at_start. cbn [Z.eqb negb]. cbv zeta.
  replace (slice_from (s "Betreff:" ++ after) (0 + len (s "Betreff:")))
    with after by (symmetry; apply slice_from_app).
  rewrite (find_char_absent_iff nl _ Hline). reflexivity.
Qed.

(** X5.  Writing a subject and a body in the format the prompt asks for,
    "Betreff: " and the subject on the first line, an empty line, then the
    body, and parsing that text gives the subject and the body back,
    provided the subject is a non-empty single line and neither has white
    space around it. *)
Theorem parse_email_content_round_trip (subject body : str)
    (Hsubject : strip subject = subject)
    (Hnonempty : subject <> [])
    (Hline : ~ In nl subject)
    (Hbody : strip body = body) :
  parse_email_content (s "Betreff: " ++ subject ++ nl :: nl :: body)
  = (subject, body).
Proof.
  destruct (stripped_both_ends subject Hsubject) as [Hls _].
  destruct (lstrip_fixed_begins subject Hls) as [E | [c [rest [E Hc]]]];
    [contradiction|].
  destruct (stripped_both_ends body Hbody) as [_ Hrb].
  change (s "Betreff: " ++ subject ++ nl :: nl :: body)
    with (s "Betreff:" ++ (space :: subject ++ nl :: nl :: body)).
  assert (Hl : lstrip (space :: subject ++ nl :: nl :: body)
               = subject ++ nl :: nl :: body).
  { rewrite lstrip_space by reflexivity. rewrite E. cbn [app].
    now apply lstrip_nonspace. }
  destruct (rstrip_fixed_ends body Hrb) as [Eb | [a [d [Eb Hd]]]].
  - (* no body: the text is the subject line alone *)
    subst body.
    assert (Hs : strip (space :: subject ++ [nl; nl]) = subject).
    { unfold strip. rewrite Hl.
      change (subject ++ [nl; nl]) with (subject ++ [nl] ++ [nl]).
      rewrite app_assoc, rstrip_snoc_space by reflexivity.
      rewrite rstrip_snoc_space by reflexivity.
      apply (stripped_both_ends subject Hsubject). }
    rewrite parse_email_content_one_line; rewrite Hs; [reflexivity | exact Hline].
  - assert (Hs : strip (space :: subject ++ nl :: nl :: body)
                 = subject ++ nl :: (nl :: body)).
    { unfold strip. rewrite Hl, Eb.
      change (subject ++ nl :: nl :: a ++ [d])
        with (subject ++ (nl :: nl :: a) ++ [d]).
      rewrite app_assoc. now apply rstrip_snoc_nonspace. }
    rewrite (parse_email_content_at_line_break _ subject (nl :: body) Hs Hline).
    rewrite Hsubject, strip_space_first by reflexivity.
    now rewrite Hbody.
Qed.

Lemma parse_email_content_round_trip_witness :
  let subject := s "Neue Fassade" in
  let body := s "Guten Tag," ++ nl :: s "bis bald" in
  strip subject = subject /\ subject <> [] /\ ~ In nl subject
  /\ strip body = body
  /\ parse_email_content (s "Betreff: " ++ subject ++ nl :: nl :: body)
     = (subject, body).
Proof.
  intros subject body.
  assert (H1 : strip subject = subject) by (vm_compute; reflexivity).
  assert (H2 : subject <> []) by discriminate.
  assert (H3 : ~ In nl subject).
  { intros H. vm_compute in H.
    repeat (destruct H as [H | H]; [discriminate H|]). exact H. }
  assert (H4 : strip body = body) by (vm_compute; reflexivity).
  repeat (split; [assumption|]).
  exact (parse_email_content_round_trip subject body H1 H2 H3 H4).
Defined.

End ParsingSpec.

(** ** The main loop of the composer and its files *)

Module ComposerMainSpec.
Import Time RateLimiter Text Composer ComposerAux TextFacts GenerationSpec.

Lemma update_json_file_stored (d : EmailData) (w : World) :
  json_output (snd (update_json_file d w))
  = Emails (stored (json_output w) ++ [d])
  /\ fst (update_json_file d w) = len_list (stored (json_output w)) + 1.
Proof.
  unfold update_json_file, stored, len_list. cbn [fst snd json_output].
  split; [reflexivity|]. rewrite length_app. cbn [List.length]. lia.
Qed.

(** X6.  Updates of the JSON output file add up: after a run of calls of
    [update_json_file] the file holds the records it held before, in their
    order, followed by the new records in the order of the calls, a file
    that was missing or not decodable counting as empty; and the next call
    returns the number of records held before, plus those added, plus
    one. *)
Theorem update_all_appends (ds : list EmailData) :
  forall w : World,
  stored (json_output (update_all ds w)) = stored (json_output w) ++ ds
  /\ forall d : EmailData,
       fst (update_json_file d (update_all ds w))
       = len_list (stored (json_output w)) + len_list ds + 1.
Proof.
  induction ds as [|d0 ds IH]; intros w.
  - cbn [update_all fold_left]. rewrite app_nil_r. split; [reflexivity|].
    intros d. rewrite (proj2 (update_json_file_stored d w)).
    unfold len_list. cbn [List.length]. lia.
  - change (update_all (d0 :: ds) w)
      with (update_all ds (snd (update_json_file d0 w))).
    destruct (IH (snd (update_json_file d0 w))) as [Hs Hc].
    rewrite (proj1 (update_json_file_stored d0 w)) in Hs, Hc.
    cbn [stored] in Hs, Hc. split.
    + rewrite Hs, <- app_assoc. reflexivity.
    + intros d. rewrite Hc. unfold len_list.
      rewrite length_app. cbn [List.length]. lia.
Qed.

Section MainLoop.

Variable prompt_words : Lead -> nat.

Lemma process_lead_skips (cfg : Config) (st : TokenRateLimiter * World)
    (lead : Lead) :
  skipped lead = true -> process_lead prompt_words cfg st lead = st.
Proof.
  unfold skipped, process_lead. destruct st as [rl w].
  destruct (truthy (get lead "name")); cbn [negb andb]; [|reflexivity].
  destruct (truthy (get lead "emails")); cbn [negb]; [discriminate|].
  reflexivity.
Qed.

(** X7.  Leads without a name or without an address are passed over: when
    every lead of the CSV file is such a lead, [main] asks no permission,
    posts nothing, writes no file and leaves the world exactly as it
    was. *)
Theorem leads_without_address_change_nothing (cfg : Config) (w : World)
    (Hskip : Forall (fun lead => skipped lead = true) (leads_of cfg)) :
  Composer.main prompt_words cfg w = w.
Proof.
  unfold Composer.main, leads_of in *.
  destruct (leads_csv cfg) as [leads|]; [|reflexivity].
  generalize (init (inject_Z (tokens_per_minute_env cfg)) (clock w)).
  intros rl. induction Hskip as [|lead leads Hl _ IH]; [reflexivity|].
  cbn [fold_left]. rewrite process_lead_skips by exact Hl. exact IH.
Qed.

(** What one lead does to the JSON output file: nothing, or one record
    more, from the configured sender to the address of the lead. *)
Lemma process_lead_json_output (cfg : Config) (rl : TokenRateLimiter)
    (w : World) (lead : Lead) :
  json_output (snd (process_lead prompt_words cfg (rl, w) lead))
  = json_output w
  \/ exists subject body recipient,
       get lead "emails" = Some recipient
       /\ json_output (snd (process_lead prompt_words cfg (rl, w) lead))
          = Emails (stored (json_output w)
                    ++ [mkEmail subject (email_from cfg) recipient body]).
Proof.
  unfold process_lead.
  destruct (truthy (get lead "name")); cbn [negb]; [|now left].
  destruct (get lead "emails") as [recipient|] eqn:Hmail;
    [|cbn; now left].
  destruct (truthy (Some recipient)) eqn:Ht; cbn [negb]; [|cbn; now left].
  rewrite Ht. cbn [negb].
  pose proof (generate_json_output prompt_words lead rl w) as Hj.
  destruct (generate_email_with_groq prompt_words lead rl w)
    as [[content rl'] w']. cbn [snd] in Hj.
  match goal with
  | |- context [if ?b then _ else _] => destruct b
  end; [|left; exact Hj].
  destruct (parse_email_content _) as [subject body].
  right. exists subject, body, recipient. split; [reflexivity|].
  unfold update_json_file, save_email, stored.
  cbn [json_output log snd fst]. rewrite Hj. reflexivity.
Qed.

Lemma fold_process_lead_json_output (cfg : Config) (leads : list Lead) :
  forall (rl : TokenRateLimiter) (w : World),
  exists added : list EmailData,
    stored (json_output
              (snd (fold_left (process_lead prompt_words cfg) leads (rl, w))))
    = stored (json_output w) ++ added
    /\ (List.length added <= List.length leads)%nat
    /\ Forall (fun d => from d = email_from cfg
                        /\ exists lead, In lead leads
                                        /\ get lead "emails" = Some (to d))
              added.
Proof.
  induction leads as [|lead leads IH]; intros rl w.
  - exists []. cbn. rewrite app_nil_r. auto.
  - cbn [fold_left].
    pose proof (process_lead_json_output cfg rl w lead) as Hstep.
    destruct (process_lead prompt_words cfg (rl, w) lead) as [rl1 w1].
    cbn [snd] in Hstep.
    destruct (IH rl1 w1) as [added [Hs [Hl Hf]]].
    assert (Hf' : Forall (fun d => from d = email_from cfg
                            /\ exists l, In l (lead :: leads)
                                         /\ get l "emails" = Some (to d))
                         added).
    { eapply Forall_impl; [|exact Hf].
      intros d [Hd [l [Hin Hg]]]. split; [exact Hd|].
      exists l. split; [now right | exact Hg]. }
    destruct Hstep as [Hsame | [subject [body [recipient [Hmail Hnew]]]]].
    + exists added. rewrite Hs, Hsame. cbn [List.length].
      repeat split; [lia | exact Hf'].
    + exists (mkEmail subject (email_from cfg) recipient body :: added).
      rewrite Hs, Hnew. cbn [stored List.length].
      rewrite <- app_assoc. repeat split; [lia|].
      constructor; [|exact Hf'].
      cbn [from to]. split; [reflexivity|].
      exists lead. split; [now left | exact Hmail].
Qed.

(** X8.  [main] only ever adds to the JSON output file: the records it held
    are kept, in their order, and what follows them is at most one record
    per lead, each from the configured sender to the address of one of the
    leads. *)
Theorem main_only_appends (cfg : Config) (w : World) :
  exists added : list EmailData,
    stored (json_output (Composer.main prompt_words cfg w))
    = stored (json_output w) ++ added
    /\ (List.length added <= List.length (leads_of cfg))%nat
    /\ Forall (fun d => from d = email_from cfg
                        /\ exists lead, In lead (leads_of cfg)
                                        /\ get lead "emails" = Some (to d))
              added.
Proof.
  unfold Composer.main, leads_of.
  destruct (leads_csv cfg) as [leads|].
  - apply fold_process_lead_json_output.
  - exists []. rewrite app_nil_r. cbn. auto.
Qed.

End MainLoop.

Lemma leads_without_address_change_nothing_witness :
  let cfg := mkConfig (Some [[("name"%string, s "Acme GmbH")];
                             [("emails"%string, s "info@acme.de")];
                             [("name"%string, s "Bau AG");
                              ("emails"%string, [])]])
                      6000 (s "sender@example.org") in
  let w := Scenarios.world Scenarios.network_flaky in
  Forall (fun lead => skipped lead = true) (leads_of cfg)
  /\ Composer.main Scenarios.prompt_words cfg w = w.
Proof.
  intros cfg w.
  assert (H : Forall (fun lead => skipped lead = true) (leads_of cfg))
    by (repeat constructor).
  split; [exact H|].
  exact (leads_without_address_change_nothing Scenarios.prompt_words cfg w H).
Defined.

(** *** The name of the saved file *)

Section FileName.

Variable isalnum : char -> bool.

Lemma replace_char_removes (old new : char) (x : str) :
  old <> new -> ~ In old (replace_char old new x).
Proof.
  intros Hne Hin. unfold replace_char in Hin.
  apply in_map_iff in Hin. destruct Hin as [c [Hc _]].
  destruct (N.eqb c old) eqn:E.
  - apply Hne. now symmetry.
  - apply N.eqb_neq in E. apply E. exact Hc.
Qed.

Lemma replace_char_keeps_out (a old new : char) (x : str) :
  a <> new -> ~ In a x -> ~ In a (replace_char old new x).
Proof.
  intros Hne Hout Hin. unfold replace_char in Hin.
  apply in_map_iff in Hin. destruct Hin as [c [Hc Hx]].
  destruct (N.eqb c old).
  - apply Hne. now symmetry.
  - subst c. exact (Hout Hx).
Qed.

(** X9.  The name of the file a generated e-mail is saved to is made of
    alphanumeric characters, "_" and "-" followed by "_email.txt": whatever
    the name of the lead, it holds no space, no "/" and no "\", so the file
    lies in the output directory itself. *)
Theorem email_file_name_is_safe (lead : Lead) :
  Forall (fun c => (isalnum c || N.eqb c underscore || N.eqb c hyphen)
                   = true)
         (safe_name isalnum lead)
  /\ email_file_name isalnum lead = safe_name isalnum lead ++ s "_email.txt"
  /\ ~ In space (email_file_name isalnum lead)
  /\ ~ In slash (email_file_name isalnum lead)
  /\ ~ In backslash (email_file_name isalnum lead).
Proof.
  set (name := get_default lead "name" (s "unknown")).
  assert (Hsp : ~ In space (replace_char space underscore name))
    by (apply replace_char_removes; discriminate).
  assert (Hsl : ~ In slash (replace_char slash underscore
                              (replace_char space underscore name)))
    by (apply replace_char_removes; discriminate).
  assert (Hsp' : ~ In space (replace_char slash underscore
                               (replace_char space underscore name)))
    by (apply replace_char_keeps_out; [discriminate | exact Hsp]).
  set (r2 := replace_char slash underscore
               (replace_char space underscore name)) in *.
  assert (Hb : ~ In backslash (replace_char backslash underscore r2))
    by (apply replace_char_removes; discriminate).
  assert (Hsl' : ~ In slash (replace_char backslash underscore r2))
    by (apply replace_char_keeps_out; [discriminate | exact Hsl]).
  assert (Hsp'' : ~ In space (replace_char backslash underscore r2))
    by (apply replace_char_keeps_out; [discriminate | exact Hsp']).
  assert (Hout : forall a : char,
            ~ In a (replace_char backslash underscore r2) ->
            ~ In a (s "_email.txt") ->
            ~ In a (email_file_name isalnum lead)).
  { intros a Ha Hs Hin. unfold email_file_name, safe_name in Hin.
    apply in_app_or in Hin. destruct Hin as [Hin | Hin]; [|exact (Hs Hin)].
    apply filter_In in Hin. exact (Ha (proj1 Hin)). }
  split; [|split; [reflexivity|]].
  - unfold safe_name. apply Forall_forall. intros c Hc.
    apply filter_In in Hc. exact (proj2 Hc).
  - repeat split; apply Hout; try assumption;
      intros H; vm_compute in H;
      repeat (destruct H as [H | H]; [discriminate H|]); exact H.
Qed.

End FileName.

End ComposerMainSpec.

(** ** Runs of the orchestrator *)

Module OrchestratorRuns.
Import Orchestrator OrchestratorSpec Stages.

Section Runs.

Variable W : Type.

(** X10.  What decides a stage.  It succeeds exactly when its file exists,
    it loads, it has a [main], and [main] returns nothing or a truthy
    value.  Its [main] is called exactly when the file exists, the module
    loads and has a [main]; the module is loaded exactly when the file
    exists. *)
Theorem stage_success_conditions (m : module_info W) (w : W) :
  (result_of (run_stage m w) = true
   <-> path_exists m w = true
       /\ exists md f,
            fst (load m w) = Some md /\ main_fn md = Some f
            /\ (fst (f (snd (load m w))) = ReturnsNone
                \/ fst (f (snd (load m w))) = Returns true))
  /\ (In (Called (name m)) (steps_of (run_stage m w))
      <-> path_exists m w = true
          /\ exists md f, fst (load m w) = Some md /\ main_fn md = Some f)
  /\ (In (Loaded (name m)) (steps_of (run_stage m w))
      <-> path_exists m w = true).
Proof.
  split; [apply run_stage_succeeds_iff|].
  unfold steps_of, run_stage, run_module.
  destruct (path_exists m w); cbn [negb].
  - destruct (load m w) as [[md|] w1]; cbn [fst snd].
    + destruct (main_fn md) as [f|] eqn:Ef.
      * destruct (f w1) as [r w2]. cbn [snd]. split.
        -- split; [intros _; split; [reflexivity|]; now exists md, f
                  | intros _; right; right; now left].
        -- split; [reflexivity | intros _; right; now left].
      * cbn [snd]. split.
        -- split.
           ++ intros [H | [H | []]]; discriminate H.
           ++ intros [_ [md' [f [Hmd Hf]]]]. injection Hmd as <-.
              rewrite Ef in Hf. discriminate Hf.
        -- split; [reflexivity | intros _; right; now left].
    + cbn [snd]. split.
      * split.
        -- intros [H | [H | []]]; discriminate H.
        -- intros [_ [md [f [Hmd _]]]]. discriminate Hmd.
      * split; [reflexivity | intros _; right; now left].
  - cbn [snd]. split.
    + split; [intros [H | []]; discriminate H | intros [H _]; discriminate H].
    + split; [intros [H | []]; discriminate H | discriminate].
Qed.

Lemma run_stage_full_steps (m : module_info W) (w : W) :
  result_of (run_stage m w) = true ->
  steps_of (run_stage m w) = full_steps m.
Proof.
  unfold result_of, steps_of, run_stage, run_module, full_steps.
  destruct (path_exists m w); cbn [negb]; [|discriminate].
  destruct (load m w) as [[md|] w1]; [|discriminate].
  destruct (main_fn md) as [f|]; [|discriminate].
  destruct (f w1) as [r w2]. reflexivity.
Qed.

(** X11.  When every stage succeeds, the run returns success and the steps
    taken are, for each stage in the order of the list, its start, its
    load and one call of its [main]: no stage is skipped and none runs
    twice. *)
Theorem successful_run_steps (modules : list (module_info W)) :
  forall (w : W) (Hall : all_succeed modules w),
  result_of (main modules w) = true
  /\ steps_of (main modules w) = flat_map full_steps modules.
Proof.
  induction modules as [|m rest IH]; intros w Hall.
  - split; reflexivity.
  - destruct Hall as [Hm Hrest].
    fold (result_of (run_stage m w)) in Hm.
    fold (state_of (run_stage m w)) in Hrest.
    destruct (IH _ Hrest) as [Hr Hs].
    rewrite main_cons, Hm. unfold result_of at 1, steps_of at 1.
    cbn [fst snd flat_map].
    rewrite Hr, Hs, (run_stage_full_steps m w Hm). split; reflexivity.
Qed.

End Runs.

Lemma successful_run_steps_witness :
  all_succeed [Scenarios.stage_a; Scenarios.stage_c] []
  /\ steps_of (main [Scenarios.stage_a; Scenarios.stage_c] [])
     = [Started "A"; Loaded "A"; Called "A";
        Started "C"; Loaded "C"; Called "C"].
Proof.
  assert (H : all_succeed [Scenarios.stage_a; Scenarios.stage_c]
                          (@nil string)) by (vm_compute; auto).
  split; [exact H|].
  exact (proj2 (successful_run_steps (list string)
                  [Scenarios.stage_a; Scenarios.stage_c] [] H)).
Defined.



End OrchestratorRuns.

(** ** The sender *)

Module SenderSpec.
Import Text TextMore Composer Orchestrator Sender TextFacts.

(** *** Line breaks in the HTML body *)

Lemma split_go_char (c : char) :
  forall (x cur : str),
  ~ In c cur -> Forall (fun p => ~ In c p) (split_go [c] x 0 cur).
Proof.
  induction x as [|a x IH]; intros cur Hcur; cbn [split_go].
  - constructor; [|constructor]. intros H. apply in_rev in H. exact (Hcur H).
  - cbn [startswith List.length Nat.sub].
    destruct (N.eqb a c) eqn:E; cbn [andb].
    + rewrite startswith_nil. constructor.
      * intros H. apply in_rev in H. exact (Hcur H).
      * apply IH. intros [].
    + apply IH. intros [H | H]; [|exact (Hcur H)].
      apply N.eqb_neq in E. apply E. now symmetry.
Qed.

Lemma split_char_pieces (c : char) (x : str) :
  Forall (fun p => ~ In c p) (split x [c]).
Proof. apply split_go_char. intros []. Qed.

Lemma replace_removes (x : str) (old : char) (new : str) :
  ~ In old new -> ~ In old (replace x old new).
Proof.
  intros Hnew Hin. unfold replace in Hin. apply in_flat_map in Hin.
  destruct Hin as [c [_ Hc]]. destruct (N.eqb c old) eqn:E.
  - exact (Hnew Hc).
  - destruct Hc as [Hc | []]. apply N.eqb_neq in E. apply E. exact Hc.
Qed.

Lemma join_keeps_out (c : char) (sep : str) (parts : list str) :
  ~ In c sep -> Forall (fun p => ~ In c p) parts -> ~ In c (join sep parts).
Proof.
  intros Hsep Hparts. induction Hparts as [|p rest Hp Hrest IH]; [intros []|].
  destruct rest as [|q rest]; [exact Hp|].
  change (join sep (p :: q :: rest)) with (p ++ sep ++ join sep (q :: rest)).
  intros H. apply in_app_or in H. destruct H as [H | H]; [exact (Hp H)|].
  apply in_app_or in H. destruct H as [H | H]; [exact (Hsep H) | exact (IH H)].
Qed.

Ltac no_nl_in_literal :=
  let H := fresh in
  intros H; vm_compute in H;
  repeat (destruct H as [H | H]; [discriminate H|]); exact H.

(** A formatted paragraph holds no line break, and there is one for a
    paragraph that is not blank, none for a blank one. *)
Lemma format_paragraph_one_line (paragraph : str) :
  Forall (fun h => ~ In nl h) (format_paragraph paragraph)
  /\ List.length (format_paragraph paragraph)
     = if truthy (Some (strip paragraph)) then 1%nat else 0%nat.
Proof.
  unfold format_paragraph.
  destruct (truthy (Some (strip paragraph))); [|split; [constructor | reflexivity]].
  destruct (contains paragraph signature_marker).
  - split; [|reflexivity]. constructor; [|constructor].
    pose proof (split_char_pieces nl paragraph) as Hparts.
    destruct (split paragraph [nl]) as [|first rest];
      cbn [hd tl]; inversion Hparts as [|? ? Hfirst Hrest]; subst.
    + cbv zeta. destruct (1 <? len_list []); no_nl_in_literal.
    + cbv zeta.
      assert (H1 : ~ In nl (s "<p>" ++ first ++ s "</p>")).
      { intros H. apply in_app_or in H. destruct H as [H | H];
          [revert H; no_nl_in_literal|].
        apply in_app_or in H. destruct H as [H | H];
          [exact (Hfirst H) | revert H; no_nl_in_literal]. }
      destruct (1 <? len_list (first :: rest)); [|exact H1].
      intros H. apply in_app_or in H. destruct H as [H | H]; [exact (H1 H)|].
      apply in_app_or in H. destruct H as [H | H];
        [revert H; no_nl_in_literal|].
      apply in_app_or in H. destruct H as [H | H];
        [|revert H; no_nl_in_literal].
      revert H. apply join_keeps_out; [no_nl_in_literal | exact Hrest].
  - split; [|reflexivity]. constructor; [|constructor].
    intros H. apply in_app_or in H. destruct H as [H | H];
      [revert H; no_nl_in_literal|].
    apply in_app_or in H. destruct H as [H | H];
      [|revert H; no_nl_in_literal].
    revert H. apply replace_removes. no_nl_in_literal.
Qed.

Lemma flat_map_format_paragraph (paragraphs : list str) :
  Forall (fun h => ~ In nl h) (flat_map format_paragraph paragraphs)
  /\ List.length (flat_map format_paragraph paragraphs)
     = List.length (filter (fun p => truthy (Some (strip p))) paragraphs).
Proof.
  induction paragraphs as [|p rest [IHf IHl]]; [split; [constructor | reflexivity]|].
  destruct (format_paragraph_one_line p) as [Hf Hl].
  cbn [flat_map filter]. split.
  - apply Forall_app. split; assumption.
  - rewrite length_app, Hl, IHl.
    destruct (truthy (Some (strip p))); reflexivity.
Qed.

Lemma line_breaks_app (x y : str) :
  line_breaks (x ++ y) = (line_breaks x + line_breaks y)%nat.
Proof. apply count_occ_app. Qed.

Lemma line_breaks_none (x : str) : ~ In nl x -> line_breaks x = 0%nat.
Proof. apply count_occ_not_In. Qed.

Lemma line_breaks_join (parts : list str) :
  Forall (fun h => ~ In nl h) parts ->
  line_breaks (join [nl] parts) = pred (List.length parts).
Proof.
  intros H. induction H as [|p rest Hp Hrest IH]; [reflexivity|].
  destruct rest as [|q rest]; [now apply line_breaks_none|].
  change (join [nl] (p :: q :: rest)) with (p ++ [nl] ++ join [nl] (q :: rest)).
  rewrite !line_breaks_app, IH, (line_breaks_none p Hp).
  cbn. reflexivity.
Qed.

(** X13.  The HTML body has one line for each paragraph of the text that is
    not blank: every line break inside a paragraph has become "<br>", blank
    paragraphs have gone, and the only line breaks left are those between
    the paragraphs.  A body with nothing but blank paragraphs gives the
    empty text. *)
Theorem html_body_has_one_line_per_paragraph (body_text : str) :
  line_breaks (format_html_body body_text)
  = pred (List.length (nonblank_paragraphs body_text))
  /\ (nonblank_paragraphs body_text <> [] \/ format_html_body body_text = []).
Proof.
  unfold format_html_body, nonblank_paragraphs. cbv zeta.
  destruct (flat_map_format_paragraph (split body_text [nl; nl])) as [Hf Hl].
  split.
  - rewrite line_breaks_join by exact Hf. now rewrite Hl.
  - destruct (filter _ (split body_text [nl; nl])) as [|p rest];
      [right | left; discriminate].
    cbn [List.length] in Hl. apply length_zero_iff_nil in Hl.
    rewrite Hl. reflexivity.
Qed.

(** *** The test e-mail and the two questions *)

Section SenderMain.

Variable test_recipient : str.
Variable run_main_campaign : World -> main_result * World.

Lemma send_test_email_outbox (d : EmailData) (w : SenderWorld) :
  stdin (snd (send_test_email d test_recipient w)) = stdin w
  /\ composer (snd (send_test_email d test_recipient w)) = composer w
  /\ smtp (snd (send_test_email d test_recipient w)) = smtp w
  /\ (fst (send_test_email d test_recipient w) = Some true ->
      smtp w = Delivered)
  /\ (fst (send_test_email d test_recipient w) = None ->
      outbox (snd (send_test_email d test_recipient w)) = outbox w)
  /\ exists sent : list Message,
       outbox (snd (send_test_email d test_recipient w)) = outbox w ++ sent
       /\ (List.length sent <= 1)%nat
       /\ Forall (is_test_message test_recipient) sent.
Proof.
  unfold send_test_email.
  destruct (smtp_port w) as [port|].
  - destruct (smtp w) eqn:E; cbn [fst snd stdin composer smtp outbox];
      (split; [reflexivity|]); (split; [reflexivity|]);
      (split; [first [reflexivity | exact E]|]);
      (split; [first [discriminate | reflexivity]|]);
      (split; [discriminate|]).
    + exists []. rewrite app_nil_r. repeat split; [cbn; lia | constructor].
    + eexists [_]. split; [reflexivity|]. split; [cbn; lia|].
      constructor; [|constructor].
      split; [reflexivity|]. split; [reflexivity | apply startswith_app].
    + eexists [_]. split; [reflexivity|]. split; [cbn; lia|].
      constructor; [|constructor].
      split; [reflexivity|]. split; [reflexivity | apply startswith_app].
  - cbn [fst snd]. repeat (split; [first [reflexivity | discriminate]|]).
    exists []. rewrite app_nil_r. repeat split; [cbn; lia | constructor].
Qed.

Lemma campaign_keeps (w : SenderWorld) :
  outbox (snd (campaign run_main_campaign w)) = outbox w
  /\ composer (snd (campaign run_main_campaign w))
     = snd (run_main_campaign (composer w)).
Proof.
  unfold campaign. destruct (run_main_campaign (composer w)) as [r c].
  split; reflexivity.
Qed.

(** X14.  The sender never writes to a lead.  Whatever is answered and
    whatever the SMTP server does, [main] hands at most one message to the
    server, and that message is the test e-mail: its subject begins with
    "[TEST] " and it goes to the test recipient.  The "main campaign" it
    may start is a run of the composer and sends nothing. *)
Theorem sender_only_mails_the_test_recipient (w : SenderWorld) :
  exists sent : list Message,
    outbox (snd (main test_recipient run_main_campaign w)) = outbox w ++ sent
    /\ (List.length sent <= 1)%nat
    /\ Forall (is_test_message test_recipient) sent.
Proof.
  assert (Hnone : exists sent : list Message,
             outbox w = outbox w ++ sent /\ (List.length sent <= 1)%nat
             /\ Forall (is_test_message test_recipient) sent).
  { exists []. rewrite app_nil_r. repeat split; [cbn; lia | constructor]. }
  unfold main.
  destruct (read_outreach_emails w) as [[|d rest]|]; try exact Hnone.
  destruct (ask (stdin w)) as [[[|]|] lines]; try exact Hnone.
  destruct (send_test_email_outbox d (with_stdin lines w))
    as [_ [_ [_ [_ [_ Hsent]]]]].
  destruct (send_test_email d test_recipient (with_stdin lines w))
    as [success w1]. cbn [snd] in Hsent. cbn [outbox with_stdin] in Hsent.
  destruct success as [[|]|]; try exact Hsent.
  destruct (ask (stdin w1)) as [[[|]|] lines']; try exact Hsent.
  rewrite (proj1 (campaign_keeps (with_stdin lines' w1))). exact Hsent.
Qed.

(** X15.  The two questions guard the two actions.  Unless the first
    question is answered "yes" nothing is handed to the SMTP server; and
    the composer is run (the "main campaign") only when both questions are
    answered "yes" and the test e-mail was delivered in between. *)
Theorem sender_acts_only_on_yes (w : SenderWorld) :
  let result := main test_recipient run_main_campaign w in
  (outbox (snd result) = outbox w \/ fst (ask (stdin w)) = Some true)
  /\ (composer (snd result) = composer w
      \/ (composer (snd result) = snd (run_main_campaign (composer w))
          /\ fst (ask (stdin w)) = Some true
          /\ smtp w = Delivered
          /\ fst (ask (snd (ask (stdin w)))) = Some true)).
Proof.
  cbv zeta. unfold main.
  destruct (read_outreach_emails w) as [[|d rest]|].
  - cbn [fst snd]. split; now left.
  - destruct (ask (stdin w)) as [[[|]|] lines]; cbn [fst snd].
    + destruct (send_test_email_outbox d (with_stdin lines w))
        as [Hin [Hc [_ [Hok _]]]].
      destruct (send_test_email d test_recipient (with_stdin lines w))
        as [success w1]. cbn [fst snd] in Hin, Hc, Hok.
      cbn [stdin composer smtp with_stdin] in Hin, Hc, Hok.
      split; [now right|].
      destruct success as [[|]|]; [| left; exact Hc | left; exact Hc].
      rewrite Hin.
      destruct (ask lines) as [[[|]|] lines']; cbn [fst snd];
        [| left; exact Hc | left; exact Hc].
      right. rewrite (proj2 (campaign_keeps (with_stdin lines' w1))).
      cbn [composer with_stdin]. rewrite Hc.
      split; [reflexivity|]. split; [reflexivity|].
      split; [now apply Hok | reflexivity].
    + cbn [outbox composer with_stdin]. split; now left.
    + cbn [outbox composer with_stdin]. split; now left.
  - cbn [fst snd]. split; now left.
Qed.

End SenderMain.

End SenderSpec.

(** ** The leads stage *)

Module LeadsSpec.
Import Text TextMore Leads.

Lemma mem_In (key : string) (l : list string) : mem key l = true <-> In key l.
Proof.
  unfold mem. rewrite existsb_exists. split.
  - intros [k [Hin Hk]]. apply String.eqb_eq in Hk. now subst.
  - intros H. exists key. split; [exact H | apply String.eqb_refl].
Qed.

Lemma mem_not_In (key : string) (l : list string) :
  mem key l = false <-> ~ In key l.
Proof.
  rewrite <- mem_In. destruct (mem key l); split; congruence.
Qed.

(** *** Dicts *)

Lemma dict_get_set_same (d : dict) (key : string) (v : json) :
  dict_get (dict_set d key v) key = Some v.
Proof.
  induction d as [|[k old] d IH]; cbn [dict_set dict_get].
  - now rewrite String.eqb_refl.
  - destruct (String.eqb k key) eqn:E; cbn [dict_get]; rewrite E; auto.
Qed.

Lemma dict_get_set_other (d : dict) (key key' : string) (v : json) :
  key' <> key -> dict_get (dict_set d key v) key' = dict_get d key'.
Proof.
  intros Hne. induction d as [|[k old] d IH]; cbn [dict_set dict_get].
  - destruct (String.eqb key key') eqn:E; [|reflexivity].
    apply String.eqb_eq in E. congruence.
  - destruct (String.eqb k key) eqn:E; cbn [dict_get].
    + apply String.eqb_eq in E. subst k.
      destruct (String.eqb key key') eqn:E'; [|reflexivity].
      apply String.eqb_eq in E'. congruence.
    + destruct (String.eqb k key'); [reflexivity | exact IH].
Qed.

(** Setting a key keeps the keys that were there, in their order, and adds
    the key at the end if it was not there. *)
Lemma keys_dict_set (d : dict) (key : string) (v : json) :
  keys (dict_set d key v)
  = if mem key (keys d) then keys d else keys d ++ [key].
Proof.
  induction d as [|[k old] d IH]; cbn [dict_set keys map fst mem existsb].
  - reflexivity.
  - assert (Hsym : String.eqb key k = String.eqb k key)
      by apply String.eqb_sym.
    rewrite Hsym. destruct (String.eqb k key); cbn [orb map fst].
    + reflexivity.
    + unfold keys, mem in IH. rewrite IH.
      destruct (existsb (String.eqb key) (map fst d)); reflexivity.
Qed.

(** Leaving out entries by their keys does not change what is found under
    a key that stays. *)
Lemma dict_get_filter (keep : string -> bool) (d : dict) (key : string) :
  keep key = true ->
  dict_get (filter (fun kv => keep (fst kv)) d) key = dict_get d key.
Proof.
  intros Hk. induction d as [|[k v] d IH]; [reflexivity|].
  cbn [filter fst dict_get]. destruct (String.eqb k key) eqn:E.
  - apply String.eqb_eq in E. subst k. rewrite Hk. cbn [dict_get].
    now rewrite String.eqb_refl.
  - destruct (keep k); [cbn [dict_get]; rewrite E|]; exact IH.
Qed.

(** *** [process_business_data] *)

Section Process.

Variable loads : str -> option json.
Variable dumps : dict -> str.
Variable characters : str -> list str.

Lemma processed_start (d : dict) :
  processed d (dict_set (dict_set (dict_set d "emails" (JStr []))
                                  "phone_numbers" (JStr []))
                        "social_media" (JObj [])).
Proof.
  unfold processed, contact_fields. repeat split.
  - intros k Hk.
    rewrite !dict_get_set_other; [reflexivity | | |];
      intros ->; apply Hk; cbn; auto.
  - exists []. rewrite !dict_get_set_other by discriminate.
    apply dict_get_set_same.
  - exists []. rewrite dict_get_set_other by discriminate.
    apply dict_get_set_same.
  - left. apply dict_get_set_same.
Qed.

Lemma processed_set_emails (d r : dict) (x : str) :
  processed d r -> processed d (dict_set r "emails" (JStr x)).
Proof.
  intros [Hk [_ [[p Hp] Hs]]]. unfold processed, contact_fields in *.
  repeat split.
  - intros k Hn. rewrite dict_get_set_other; [now apply Hk|].
    intros ->. apply Hn. cbn. auto.
  - exists x. apply dict_get_set_same.
  - exists p. now rewrite dict_get_set_other by discriminate.
  - rewrite dict_get_set_other by discriminate. exact Hs.
Qed.

Lemma processed_set_phone_numbers (d r : dict) (x : str) :
  processed d r -> processed d (dict_set r "phone_numbers" (JStr x)).
Proof.
  intros [Hk [[e He] [_ Hs]]]. unfold processed, contact_fields in *.
  repeat split.
  - intros k Hn. rewrite dict_get_set_other; [now apply Hk|].
    intros ->. apply Hn. cbn. auto.
  - exists e. now rewrite dict_get_set_other by discriminate.
  - exists x. apply dict_get_set_same.
  - rewrite dict_get_set_other by discriminate. exact Hs.
Qed.

Lemma processed_set_social_media (d r : dict) (x : str) :
  processed d r -> processed d (dict_set r "social_media" (JStr x)).
Proof.
  intros [Hk [[e He] [[p Hp] _]]]. unfold processed, contact_fields in *.
  repeat split.
  - intros k Hn. rewrite dict_get_set_other; [now apply Hk|].
    intros ->. apply Hn. cbn. auto.
  - exists e. now rewrite dict_get_set_other by discriminate.
  - exists p. now rewrite dict_get_set_other by discriminate.
  - right. exists x. apply dict_get_set_same.
Qed.

Lemma extract_changes (contacts : dict) (key : string) (item item' : dict) :
  extract characters contacts key item = Some item' ->
  item' = item \/ exists x, item' = dict_set item key (JStr x).
Proof.
  unfold extract. destruct (dict_get contacts key) as [v|]; [|intros [= <-]; now left].
  destruct (truthy_json v); [|intros [= <-]; now left].
  destruct (comma_join characters v) as [x|]; cbn [option_map]; [|discriminate].
  intros [= <-]. right. now exists x.
Qed.

Lemma process_item_processed (item : json) (r : dict) :
  process_item loads dumps characters item = Some r ->
  exists d, item = JObj d /\ processed d r.
Proof.
  destruct item as [| | | | |d]; try discriminate.
  cbn [process_item]. intros H. exists d. split; [reflexivity|].
  pose proof (processed_start d) as Hstart.
  set (item0 := dict_set (dict_set (dict_set d "emails" (JStr []))
                                   "phone_numbers" (JStr []))
                         "social_media" (JObj [])) in *.
  cbv zeta in H.
  destruct (dict_get item0 "emails_and_contacts") as [c|];
    [|injection H as <-; exact Hstart].
  destruct (truthy_json c); [|injection H as <-; exact Hstart].
  match type of H with
  | match ?loaded with _ => _ end = _ =>
    destruct loaded as [| | | | |contacts]; try discriminate H
  end.
  destruct (extract characters contacts "emails" item0) as [item1|] eqn:E1;
    [|discriminate H].
  destruct (extract characters contacts "phone_numbers" item1) as [item2|]
    eqn:E2; [|discriminate H].
  assert (H1 : processed d item1).
  { destruct (extract_changes _ _ _ _ E1) as [-> | [x ->]];
      [exact Hstart | now apply processed_set_emails]. }
  assert (H2 : processed d item2).
  { destruct (extract_changes _ _ _ _ E2) as [-> | [x ->]];
      [exact H1 | now apply processed_set_phone_numbers]. }
  destruct (filter _ contacts); injection H as <-;
    [exact H2 | now apply processed_set_social_media].
Qed.

Lemma process_items_processed (items : list json) :
  forall l : list dict,
  process_items loads dumps characters items = Some l ->
  Forall2 (fun item r => exists d, item = JObj d /\ processed d r) items l.
Proof.
  induction items as [|item rest IH]; intros l; cbn [process_items].
  - intros [= <-]. constructor.
  - destruct (process_item loads dumps characters item) as [r|] eqn:E;
      [|discriminate].
    destruct (process_items loads dumps characters rest) as [l'|];
      cbn [option_map]; [|discriminate].
    intros [= <-]. constructor; [now apply process_item_processed | now apply IH].
Qed.

(** X16.  What [process_business_data] returns is empty, or it is the list
    of the records found under "data", one for one and in their order,
    each a dict to which the three contact fields have been set: the
    e-mail addresses and the phone numbers as strings, the social media as
    the empty dict or a string, every other field as it was.  There is no
    partial result: one record that cannot be processed empties the
    list. *)
Theorem process_business_data_all_or_nothing (data : json) :
  process_business_data loads dumps characters data = []
  \/ exists (d : dict) (items : list json),
       data = JObj d
       /\ dict_get d "data" = Some (JArr items)
       /\ Forall2 (fun item r => exists d', item = JObj d' /\ processed d' r)
                  items (process_business_data loads dumps characters data).
Proof.
  destruct data as [| | | | |d]; try (now left).
  cbn [process_business_data]. cbv zeta.
  destruct (dict_get d "data") as [v|] eqn:Hdata; [|now left].
  destruct (truthy_json v); cbn [negb]; [|now left].
  destruct v as [| | | |items|]; try (now left).
  destruct (process_items loads dumps characters items) as [l|] eqn:E;
    [|now left].
  right. exists d, items.
  split; [reflexivity|]. split; [exact Hdata|].
  now apply process_items_processed.
Qed.

End Process.

(** *** [save_to_csv] *)

Lemma wanted_spec (f : string) :
  wanted f = true <-> ~ In f exclude_columns /\ ~ In f priority_fields.
Proof.
  unfold wanted. rewrite andb_true_iff, !negb_true_iff, !mem_not_In. tauto.
Qed.

(** No field name is an excluded column. *)
Lemma fieldnames_not_excluded (first : dict) (f : string) :
  In f (fieldnames first) -> mem f exclude_columns = false.
Proof.
  unfold fieldnames. intros H. apply in_app_or in H. destruct H as [H | H].
  - cbn in H. repeat (destruct H as [<- | H]; [reflexivity|]). destruct H.
  - apply filter_In in H. destruct H as [_ H].
    apply wanted_spec in H. now apply mem_not_In.
Qed.

(** Every key of the first record is excluded or is a field name. *)
Lemma first_keys_covered (first : dict) (k : string) :
  In k (keys first) -> In k exclude_columns \/ In k (fieldnames first).
Proof.
  intros H. destruct (mem k exclude_columns) eqn:E; [left; now apply mem_In|].
  right. unfold fieldnames. apply in_or_app.
  destruct (mem k priority_fields) eqn:P; [left; now apply mem_In|].
  right. apply filter_In. split; [exact H|].
  unfold wanted. now rewrite E, P.
Qed.

Lemma keys_filtered_item (item : dict) (k : string) :
  In k (keys (filtered_item item))
  <-> In k (keys item) /\ ~ In k exclude_columns.
Proof.
  unfold keys, filtered_item. rewrite !in_map_iff. split.
  - intros [[k' v] [<- H]]. apply filter_In in H. destruct H as [H Hk].
    cbn [fst] in *. split; [now exists (k', v)|].
    apply mem_not_In. now apply negb_true_iff.
  - intros [[[k' v] [<- H]] Hn]. exists (k', v). split; [reflexivity|].
    apply filter_In. split; [exact H|]. cbn [fst] in *.
    apply negb_true_iff. now apply mem_not_In.
Qed.

Lemma conforming_spec (fn : list string) (item : dict) :
  conforming fn item = true
  <-> forall k, In k (keys item) -> In k exclude_columns \/ In k fn.
Proof.
  unfold conforming. rewrite forallb_forall. split.
  - intros H k Hk. destruct (mem k exclude_columns) eqn:E;
      [left; now apply mem_In|].
    right. apply mem_In. apply H. apply keys_filtered_item.
    split; [exact Hk | now apply mem_not_In].
  - intros H k Hk. apply keys_filtered_item in Hk. destruct Hk as [Hk Hn].
    apply mem_In. destruct (H k Hk) as [He | Hf]; [contradiction | exact Hf].
Qed.

(** The first record always fits the field names made from it. *)
Lemma first_conforms (first : dict) :
  conforming (fieldnames first) first = true.
Proof. apply conforming_spec. apply first_keys_covered. Qed.

(** A row as [writerow] writes it is the row of the record itself, as no
    field name is an excluded column. *)
Lemma writerow_row_of (first item : dict) :
  writerow (fieldnames first) (filtered_item item)
  = if conforming (fieldnames first) item
    then Some (row_of (fieldnames first) item)
    else None.
Proof.
  unfold writerow, conforming, row_of.
  destruct (forallb _ (keys (filtered_item item))); [|reflexivity].
  f_equal. apply map_ext_in. intros f Hf.
  unfold filtered_item.
  rewrite (dict_get_filter (fun k => negb (mem k exclude_columns)));
    [reflexivity|].
  now rewrite (fieldnames_not_excluded first f Hf).
Qed.

Lemma write_rows_spec (first : dict) (data : list dict) :
  write_rows (fieldnames first) data
  = (forallb (conforming (fieldnames first)) data,
     map (row_of (fieldnames first)) (fitting (fieldnames first) data)).
Proof.
  induction data as [|item rest IH]; [reflexivity|].
  cbn [write_rows forallb fitting]. rewrite writerow_row_of.
  destruct (conforming (fieldnames first) item); [|reflexivity].
  rewrite IH. reflexivity.
Qed.

Lemma fitting_all (fn : list string) (data : list dict) :
  forallb (conforming fn) data = true -> fitting fn data = data.
Proof.
  induction data as [|item rest IH]; [reflexivity|].
  cbn [forallb fitting]. intros H. apply andb_true_iff in H.
  destruct H as [H1 H2]. rewrite H1, (IH H2). reflexivity.
Qed.

Lemma fitting_length (fn : list string) (data : list dict) :
  (List.length (fitting fn data) <= List.length data)%nat.
Proof.
  induction data as [|item rest IH]; [apply Nat.le_refl|].
  cbn [fitting]. destruct (conforming fn item); cbn [List.length]; lia.
Qed.

Lemma fitting_stops (fn : list string) (good : list dict) (bad : dict)
    (more : list dict) :
  forallb (conforming fn) good = true -> conforming fn bad = false ->
  fitting fn (good ++ bad :: more) = good
  /\ forallb (conforming fn) (good ++ bad :: more) = false.
Proof.
  intros Hgood Hbad. induction good as [|item rest IH].
  - cbn [app fitting forallb]. now rewrite Hbad.
  - cbn [forallb] in Hgood. apply andb_true_iff in Hgood.
    destruct Hgood as [H1 H2]. destruct (IH H2) as [IH1 IH2].
    cbn [app fitting forallb]. now rewrite H1, IH1, IH2.
Qed.

(** X17.  The header of the CSV file is made from the first record, and
    from nothing else: its first five columns are the priority fields in
    their fixed order, and the columns after them are exactly the keys of
    the first record that are neither excluded nor priority fields, in the
    order the record has them.  So it holds no excluded column and, the
    keys of a record being distinct, no column twice; and every key of the
    first record that is not excluded is a column. *)
Theorem csv_header_layout (first : dict) (rest : list dict)
    (file : option csv_file) (Hkeys : NoDup (keys first)) :
  exists csv : csv_file,
    snd (save_to_csv (first :: rest) file) = Some csv
    /\ firstn 5 (header csv) = priority_fields
    /\ skipn 5 (header csv)
       = filter (fun k => negb (mem k exclude_columns)
                          && negb (mem k priority_fields))
                (keys first)
    /\ NoDup (header csv)
    /\ Forall (fun f => ~ In f exclude_columns) (header csv)
    /\ Forall (fun k => In k exclude_columns \/ In k (header csv))
              (keys first).
Proof.
  unfold save_to_csv. rewrite write_rows_spec. cbn [snd].
  eexists. split; [reflexivity|]. cbn [header].
  split; [reflexivity|]. split; [reflexivity|]. repeat split.
  - unfold fieldnames. apply NoDup_app.
    + repeat constructor; cbn; intuition discriminate.
    + apply NoDup_filter. exact Hkeys.
    + intros f Hf Hin. apply filter_In in Hin. destruct Hin as [_ Hw].
      apply wanted_spec in Hw. tauto.
  - apply Forall_forall. intros f Hf.
    apply mem_not_In. exact (fieldnames_not_excluded first f Hf).
  - apply Forall_forall. intros k Hk. now apply first_keys_covered.
Qed.

(** X18.  [save_to_csv] returns [True] exactly when the list is not empty
    and no record has a key, outside the excluded columns, that is not a
    column of the header; the first record always passes.  The file then
    has one row for each record; in every case each row written is as wide
    as the header and there are never more rows than records. *)
Theorem save_to_csv_succeeds_iff (first : dict) (rest : list dict)
    (file : option csv_file) :
  exists csv : csv_file,
    snd (save_to_csv (first :: rest) file) = Some csv
    /\ (fst (save_to_csv (first :: rest) file) = true
        <-> Forall (fun item =>
                     forall k, In k (keys item) ->
                               In k exclude_columns \/ In k (header csv))
                   rest)
    /\ Forall (fun row => List.length row = List.length (header csv))
              (rows csv)
    /\ (List.length (rows csv) <= List.length (first :: rest))%nat
    /\ (fst (save_to_csv (first :: rest) file) = false
        \/ List.length (rows csv) = List.length (first :: rest)).
Proof.
  unfold save_to_csv. rewrite write_rows_spec. cbn [fst snd].
  eexists. split; [reflexivity|]. cbn [header rows]. split; [|split; [|split]].
  - cbn [forallb]. rewrite first_conforms. cbn [andb].
    rewrite forallb_forall, Forall_forall.
    split; intros H item Hin; apply conforming_spec; now apply H.
  - apply Forall_forall. intros row Hrow. apply in_map_iff in Hrow.
    destruct Hrow as [item [<- _]]. unfold row_of. apply length_map.
  - rewrite length_map. apply fitting_length.
  - destruct (forallb (conforming (fieldnames first)) (first :: rest)) eqn:E;
      [right | now left].
    now rewrite length_map, (fitting_all _ _ E).
Qed.

(** X19.  What was saved can be read back.  After a save that returned
    [True], the cell in the row of a record under a column holds the value
    the record has under that key, and is blank when the record has no
    such key. *)
Theorem csv_cell_round_trip (data_list : list dict) (file : option csv_file)
    (csv : csv_file) (i j : nat) (item : dict) (f : string)
    (Hsaved : save_to_csv data_list file = (true, Some csv))
    (Hitem : nth_error data_list i = Some item)
    (Hcolumn : nth_error (header csv) j = Some f) :
  exists row : list cell,
    nth_error (rows csv) i = Some row
    /\ nth_error row j
       = Some (match dict_get item f with
               | Some v => Given v
               | None => Blank
               end).
Proof.
  destruct data_list as [|first rest]; [discriminate Hsaved|].
  unfold save_to_csv in Hsaved. rewrite write_rows_spec in Hsaved.
  pose proof (f_equal fst Hsaved) as Hok.
  pose proof (f_equal snd Hsaved) as Hcsv. cbn [fst snd] in Hok, Hcsv.
  rewrite (fitting_all _ _ Hok) in Hcsv.
  assert (Heq : csv = mkCsv (fieldnames first)
                            (map (row_of (fieldnames first)) (first :: rest)))
    by congruence.
  subst csv. cbn [header rows] in *.
  exists (row_of (fieldnames first) item). split.
  - rewrite nth_error_map, Hitem. reflexivity.
  - unfold row_of. rewrite nth_error_map, Hcolumn. reflexivity.
Qed.

(** X20.  A record with a key that is neither excluded nor a column of the
    header stops the save half way: [save_to_csv] returns [False], and the
    file is left with the header and the rows of the records before that
    one. *)
Theorem save_to_csv_stops_at_foreign_key (good : list dict) (bad : dict)
    (more : list dict) (file : option csv_file)
    (Hgood : forallb (conforming (fieldnames (hd bad good))) good = true)
    (Hbad : conforming (fieldnames (hd bad good)) bad = false) :
  save_to_csv (good ++ bad :: more) file
  = (false,
     Some (mkCsv (fieldnames (hd bad good))
                 (map (row_of (fieldnames (hd bad good))) good))).
Proof.
  destruct good as [|first good'].
  - cbn [hd] in Hbad. rewrite first_conforms in Hbad. discriminate Hbad.
  - cbn [hd] in *. change ((first :: good') ++ bad :: more)
      with (first :: (good' ++ bad :: more)).
    unfold save_to_csv. rewrite write_rows_spec.
    change (first :: good' ++ bad :: more)
      with ((first :: good') ++ bad :: more).
    destruct (fitting_stops _ _ _ more Hgood Hbad) as [Hf Ha].
    rewrite Hf, Ha. reflexivity.
Qed.

Lemma csv_header_layout_witness :
  NoDup (keys business_1)
  /\ exists csv : csv_file,
       snd (save_to_csv [business_1; business_2] None) = Some csv
       /\ header csv
          = ["business_id"; "name"; "phone_numbers"; "emails";
             "social_media"; "rating"]%string.
Proof.
  assert (H : NoDup (keys business_1))
    by (repeat constructor; cbn; intuition discriminate).
  split; [exact H|].
  destruct (csv_header_layout business_1 [business_2] None H)
    as [csv [Hcsv _]].
  exists csv. split; [exact Hcsv|].
  vm_compute in Hcsv. injection Hcsv as <-. reflexivity.
Defined.

Lemma csv_cell_round_trip_witness :
  let csv := mkCsv ["business_id"; "name"; "phone_numbers"; "emails";
                    "social_media"; "rating"]%string
                   [row_of (fieldnames business_1) business_1;
                    row_of (fieldnames business_1) business_2] in
  save_to_csv [business_1; business_2] None = (true, Some csv)
  /\ nth_error [business_1; business_2] 1 = Some business_2
  /\ nth_error (header csv) 1 = Some "name"%string
  /\ exists row : list cell,
       nth_error (rows csv) 1 = Some row
       /\ nth_error row 1 = Some (Given (JStr (s "Bau"))).
Proof.
  intros csv.
  assert (H1 : save_to_csv [business_1; business_2] None = (true, Some csv))
    by (vm_compute; reflexivity).
  assert (H2 : nth_error [business_1; business_2] 1 = Some business_2)
    by reflexivity.
  assert (H3 : nth_error (header csv) 1 = Some "name"%string) by reflexivity.
  repeat (split; [assumption|]).
  exact (csv_cell_round_trip [business_1; business_2] None csv 1 1
           business_2 "name" H1 H2 H3).
Defined.

Lemma save_to_csv_stops_at_foreign_key_witness :
  forallb (conforming (fieldnames (hd business_3 [business_1; business_2])))
          [business_1; business_2] = true
  /\ conforming (fieldnames (hd business_3 [business_1; business_2]))
                business_3 = false
  /\ fst (save_to_csv [business_1; business_2; business_3; business_1] None)
     = false.
Proof.
  assert (H1 : forallb (conforming
                          (fieldnames (hd business_3 [business_1; business_2])))
                       [business_1; business_2] = true)
    by (vm_compute; reflexivity).
  assert (H2 : conforming
                 (fieldnames (hd business_3 [business_1; business_2]))
                 business_3 = false) by (vm_compute; reflexivity).
  repeat (split; [assumption|]).
  exact (f_equal fst
           (save_to_csv_stops_at_foreign_key [business_1; business_2]
              business_3 [business_1] None H1 H2)).
Defined.

(** *** [main] *)

Section Main.

Variable loads : str -> option json.
Variable dumps : dict -> str.
Variable characters : str -> list str.

Lemma forall2_in_right {A B : Type} (R : A -> B -> Prop) (l : list A)
    (l' : list B) (b : B) :
  Forall2 R l l' -> In b l' -> exists a, In a l /\ R a b.
Proof.
  intros H. induction H as [|a b' l l' Hab _ IH]; [intros []|].
  intros [<- | Hin].
  - exists a. split; [now left | exact Hab].
  - destruct (IH Hin) as [a' [Ha' Hr]]. exists a'. split; [now right | exact Hr].
Qed.

Lemma processed_row (first d r : dict) :
  processed d r ->
  (exists p, nth_error (row_of (fieldnames first) r) 2
             = Some (Given (JStr p)))
  /\ (exists e, nth_error (row_of (fieldnames first) r) 3
                = Some (Given (JStr e))).
Proof.
  intros [_ [[e He] [[p Hp] _]]]. unfold row_of. split.
  - exists p. rewrite nth_error_map.
    change (nth_error (fieldnames first) 2) with (Some "phone_numbers"%string).
    cbn [option_map]. now rewrite Hp.
  - exists e. rewrite nth_error_map.
    change (nth_error (fieldnames first) 3) with (Some "emails"%string).
    cbn [option_map]. now rewrite He.
Qed.

(** X21.  When [main] of the leads stage returns [True], the answer of the
    API was a dict with a list of records under "data", and the CSV file
    now has the priority fields as its first five columns and one row for
    each of those records, with a string (possibly empty) in its columns
    for the phone numbers and for the e-mail addresses. *)
Theorem leads_main_success (fetched : option json) (file : option csv_file)
    (Hok : fst (main loads dumps characters fetched file) = true) :
  exists (d : dict) (items : list json) (csv : csv_file),
    fetched = Some (JObj d)
    /\ dict_get d "data" = Some (JArr items)
    /\ snd (main loads dumps characters fetched file) = Some csv
    /\ firstn 5 (header csv) = priority_fields
    /\ List.length (rows csv) = List.length items
    /\ Forall (fun row =>
                 (exists p, nth_error row 2 = Some (Given (JStr p)))
                 /\ (exists e, nth_error row 3 = Some (Given (JStr e))))
              (rows csv).
Proof.
  unfold main in *. destruct fetched as [data|]; [|discriminate Hok].
  destruct (truthy_json data); cbn [negb] in *; [|discriminate Hok].
  destruct data as [| | | | |d]; try discriminate Hok.
  unfold process_business_data in *. cbv zeta in *.
  destruct (dict_get d "data") as [v|] eqn:Hdata; [|discriminate Hok].
  destruct (truthy_json v); cbn [negb] in *; [|discriminate Hok].
  destruct v as [| | | |items|]; try discriminate Hok.
  destruct (process_items loads dumps characters items) as [l|] eqn:E;
    [|discriminate Hok].
  pose proof (process_items_processed loads dumps characters items l E)
    as Hall.
  destruct l as [|first rest]; [discriminate Hok|].
  unfold save_to_csv in *. rewrite write_rows_spec in *.
  destruct (forallb (conforming (fieldnames first)) (first :: rest)) eqn:F;
    cbn [negb fst snd] in *; [|discriminate Hok].
  exists d, items, (mkCsv (fieldnames first)
                          (map (row_of (fieldnames first))
                               (fitting (fieldnames first) (first :: rest)))).
  rewrite (fitting_all _ _ F). cbn [header rows].
  split; [reflexivity|]. split; [exact Hdata|]. split; [reflexivity|].
  split; [reflexivity|]. split.
  - rewrite length_map. symmetry. exact (Forall2_length Hall).
  - apply Forall_forall. intros row Hrow. apply in_map_iff in Hrow.
    destruct Hrow as [r [<- Hr]].
    destruct (forall2_in_right _ _ _ r Hall Hr) as [item [_ [d' [_ Hd]]]].
    exact (processed_row first d' r Hd).
Qed.

End Main.

Lemma leads_main_success_witness :
  fst (main no_loads some_dumps one_by_one (Some api_answer) None) = true
  /\ exists csv : csv_file,
       snd (main no_loads some_dumps one_by_one (Some api_answer) None)
       = Some csv
       /\ List.length (rows csv) = 2%nat.
Proof.
  assert (H : fst (main no_loads some_dumps one_by_one (Some api_answer) None)
              = true) by (vm_compute; reflexivity).
  split; [exact H|].
  destruct (leads_main_success no_loads some_dumps one_by_one
              (Some api_answer) None H)
    as [d [items [csv [Hf [Hd [Hs [_ [Hl _]]]]]]]].
  exists csv. split; [exact Hs|].
  injection Hf as <-. vm_compute in Hd. injection Hd as <-. exact Hl.
Defined.

End LeadsSpec.

(** ** The limiter as the generation loop uses it *)

Module LimiterInUse.
Import Time RateLimiter Text Composer ComposerAux TimeFacts LimiterSpec
       GenerationOutcomes.





Section Overshoot.

Variable prompt_words : Lead -> nat.


End Overshoot.


End LimiterInUse.

(** ** What a run of the composer costs *)

Module ComposerCost.
Import Time RateLimiter Text Composer ComposerAux GenerationSpec.

Section Cost.

Variable prompt_words : Lead -> nat.

Lemma costs_app (n m : nat) (a b : list event) :
  costs n a -> costs m b -> costs (n + m) (a ++ b).
Proof.
  intros [Ha1 Ha2] [Hb1 Hb2]. unfold costs.
  rewrite permission_checks_app, post_attempts_app. lia.
Qed.

Lemma generate_costs (lead : Lead) (rl : TokenRateLimiter) (w : World) :
  exists tail : list event,
    events (snd (generate_email_with_groq prompt_words lead rl w))
    = events w ++ tail
    /\ costs 1 tail.
Proof.
  unfold generate_email_with_groq.
  destruct (request_permission rl (clock w) (estimate prompt_words lead))
    as [wait_time rl1].
  set (est := estimate prompt_words lead).
  set (w1 := if 0 <? wait_time
             then sleep wait_time (log (EvPermission est) w)
             else log (EvPermission est) w).
  destruct (request_loop_trace (Z.to_nat max_retries) 0 lead est rl1 w1)
    as [tail [Ht [Hp [Hle Hge]]]].
  change (Z.to_nat max_retries) with 3%nat in Hle, Hge.
  pose proof (Hge ltac:(discriminate)) as Hone.
  assert (Hw1 : exists pre, events w1 = events w ++ pre
                            /\ permission_checks pre = 1%nat
                            /\ post_attempts pre = 0%nat).
  { unfold w1. destruct (0 <? wait_time).
    - exists [EvPermission est; EvSleep wait_time]. cbn.
      rewrite <- app_assoc. auto.
    - exists [EvPermission est]. cbn. auto. }
  destruct Hw1 as [pre [Hpre [Hpp Hpa]]].
  exists (pre ++ tail). rewrite Ht, Hpre, <- app_assoc.
  split; [reflexivity|]. unfold costs.
  rewrite permission_checks_app, post_attempts_app. lia.
Qed.

Lemma process_lead_costs (cfg : Config) (rl : TokenRateLimiter) (w : World)
    (lead : Lead) :
  exists tail : list event,
    events (snd (process_lead prompt_words cfg (rl, w) lead))
    = events w ++ tail
    /\ costs (if skipped lead then 0 else 1) tail.
Proof.
  assert (Hnone : exists tail : list event,
             events w = events w ++ tail /\ costs 0 tail).
  { exists []. rewrite app_nil_r. split; [reflexivity|].
    unfold costs. cbn. lia. }
  unfold process_lead, skipped.
  destruct (truthy (get lead "name")); cbn [negb andb]; [|exact Hnone].
  destruct (truthy (get lead "emails")) eqn:Hm; cbn [negb];
    [|exact Hnone].
  rewrite Hm. cbn [negb].
  destruct (generate_costs lead rl w) as [tail [Ht Hc]].
  destruct (generate_email_with_groq prompt_words lead rl w)
    as [[content rl'] w']. cbn [snd] in Ht.
  match goal with
  | |- context [if ?b then _ else _] => destruct b
  end.
  - destruct (parse_email_content _) as [subject body].
    unfold update_json_file, save_email. cbn [snd events log].
    exists (tail ++ [EvSaveEmail
                       match content with Some t => t | None => [] end;
                     EvJsonWrite]).
    rewrite Ht, <- !app_assoc. split; [reflexivity|].
    apply (costs_app 1 0); [exact Hc|]. unfold costs. cbn. lia.
  - exists tail. cbn [snd]. split; assumption.
Qed.

Lemma fold_process_lead_costs (cfg : Config) (leads : list Lead) :
  forall (rl : TokenRateLimiter) (w : World),
  exists tail : list event,
    events (snd (fold_left (process_lead prompt_words cfg) leads (rl, w)))
    = events w ++ tail
    /\ costs (List.length (filter (fun lead => negb (skipped lead)) leads))
             tail.
Proof.
  induction leads as [|lead leads IH]; intros rl w.
  - exists []. rewrite app_nil_r. split; [reflexivity|].
    unfold costs. cbn. lia.
  - cbn [fold_left filter].
    destruct (process_lead_costs cfg rl w lead) as [tail1 [H1 C1]].
    destruct (process_lead prompt_words cfg (rl, w) lead) as [rl1 w1].
    cbn [snd] in H1.
    destruct (IH rl1 w1) as [tail2 [H2 C2]].
    exists (tail1 ++ tail2). rewrite H2, H1, <- app_assoc.
    split; [reflexivity|].
    destruct (skipped lead); cbn [negb List.length].
    + apply (costs_app 0 _); assumption.
    + apply (costs_app 1 _); assumption.
Qed.

(** X24.  What a run of the composer costs: one permission check of the
    rate limiter for each lead that is not passed over, and for each such
    lead at least one post to the generation API and at most three. *)
Theorem main_cost (cfg : Config) (w : World) :
  let happened := events_since w (Composer.main prompt_words cfg w) in
  permission_checks happened = List.length (processed_leads cfg)
  /\ (List.length (processed_leads cfg) <= post_attempts happened
      <= 3 * List.length (processed_leads cfg))%nat.
Proof.
  cbv zeta. unfold events_since, processed_leads, leads_of, Composer.main.
  destruct (leads_csv cfg) as [leads|].
  - destruct (fold_process_lead_costs cfg leads
                (init (inject_Z (tokens_per_minute_env cfg)) (clock w)) w)
      as [tail [Ht Hc]].
    rewrite Ht, skipn_app, skipn_all, Nat.sub_diag. cbn [app skipn].
    exact Hc.
  - rewrite skipn_all. cbn. lia.
Qed.

End Cost.

End ComposerCost.
